(** * Response updater of fastapi-msgspec-openapi

    A shallow embedding of [src/fastapi_msgspec_openapi/updater.py] and the
    properties of [update_route_responses] stated in the specification.

    The OpenAPI document is the JSON tree the host framework produced, so it
    is modelled as a tree of values: a dictionary is a finite map with
    string keys, and no object is reachable through two different
    positions of the document.  In-place mutation of the document is
    written as an update of the tree at the position of the mutated
    object. *)

From Stdlib Require Import ZArith DecimalString Ascii.
From stdpp Require Import base option list strings gmap.

Set Warnings "-register-all".

Local Open Scope Z_scope.

(** ** Python values and the operations the updater applies to them *)

(** The exceptions the code can meet.  Every constructor is a subclass of
    Python's [Exception]; [OtherError] stands for any other such class that
    derives neither from [NameError] nor from [AttributeError]. *)
Inductive exn : Type :=
  | NameError
  | AttributeError
  | TypeError
  | KeyError
  | OtherError (cls : string).

(** What evaluating an expression gives: a value, or a raised exception. *)
Inductive outcome (A : Type) : Type :=
  | Return (a : A)
  | Raise (e : exn).
Arguments Return {A} a.
Arguments Raise {A} e.

(** JSON-like values of [dict[str, Any]].  A float behaves like [VInt] for
    every operation used here and is left out. *)
Inductive value : Type :=
  | VNone
  | VBool (b : bool)
  | VInt (n : Z)
  | VStr (s : string)
  | VList (l : list value)
  | VDict (d : gmap string value).

(** [str(n)] for an [int]. *)
Definition str (n : Z) : string := NilZero.string_of_int (Z.to_int n).

(** [s.lower()] and [s.upper()], on ASCII letters. *)
Definition lower_ascii (c : ascii) : ascii :=
  let n := N_of_ascii c in
  if ((65 <=? n) && (n <=? 90))%N then ascii_of_N (n + 32) else c.

Definition upper_ascii (c : ascii) : ascii :=
  let n := N_of_ascii c in
  if ((97 <=? n) && (n <=? 122))%N then ascii_of_N (n - 32) else c.

Fixpoint lower (s : string) : string :=
  match s with
  | EmptyString => EmptyString
  | String c s' => String (lower_ascii c) (lower s')
  end.

Fixpoint upper (s : string) : string :=
  match s with
  | EmptyString => EmptyString
  | String c s' => String (upper_ascii c) (upper s')
  end.

(** [sub in s] for two strings. *)
Fixpoint is_substring (sub s : string) : bool :=
  String.prefix sub s ||
  match s with
  | EmptyString => false
  | String _ s' => is_substring sub s'
  end.

(** [key in container], for a string [key]. *)
Definition contains (key : string) (container : value) : outcome bool :=
  match container with
  | VDict d => Return (bool_decide (is_Some (d !! key)))
  | VList l =>
      Return (existsb (λ v, match v with
                            | VStr s => String.eqb s key
                            | _ => false
                            end) l)
  | VStr s => Return (is_substring key s)
  | VNone | VBool _ | VInt _ => Raise TypeError
  end.

(** [container[key]], for a string [key]. *)
Definition getitem (container : value) (key : string) : outcome value :=
  match container with
  | VDict d =>
      match d !! key with
      | Some v => Return v
      | None => Raise KeyError
      end
  | _ => Raise TypeError
  end.

(** [obj.get(key, default)]. *)
Definition get (obj : value) (key : string) (default : value) : outcome value :=
  match obj with
  | VDict d =>
      match d !! key with
      | Some v => Return v
      | None => Return default
      end
  | _ => Raise AttributeError
  end.

(** ** Positions in the document tree *)

(** The value reached from [v] by following the keys [ks] through
    dictionaries. *)
Fixpoint get_at (ks : list string) (v : value) : option value :=
  match ks with
  | [] => Some v
  | k :: ks' =>
      match v with
      | VDict d => d !! k ≫= get_at ks'
      | _ => None
      end
  end.

(** The tree [v] with [f] applied to the value at position [ks]; [v] itself
    when there is no such position. *)
Fixpoint alter_at (ks : list string) (f : value → value) (v : value) : value :=
  match ks with
  | [] => f v
  | k :: ks' =>
      match v with
      | VDict d => VDict (alter (alter_at ks' f) k d)
      | _ => v
      end
  end.

(** ** Effects: the [paths] object and the logger *)

Inductive level : Type := DEBUG | ERROR.

Inductive log_arg : Type :=
  | ArgStr (s : string)
  | ArgExc (e : exn).

Record LogRecord : Type := {
  levelname : level;
  msg : string;
  args : list log_arg;
  exc_info : bool
}.

(** A computation reads and mutates the object bound to [paths], emits log
    records, and returns or raises. *)
Definition Py (A : Type) : Type := value → value * list LogRecord * outcome A.

Global Instance Py_ret : MRet Py := λ A a paths, (paths, [], Return a).

Global Instance Py_bind : MBind Py := λ A B k m paths,
  match m paths with
  | (paths1, l1, Return a) =>
      match k a paths1 with
      | (paths2, l2, o) => (paths2, l1 ++ l2, o)
      end
  | (paths1, l1, Raise e) => (paths1, l1, Raise e)
  end.

Definition lift {A} (o : outcome A) : Py A := λ paths, (paths, [], o).

Definition read : Py value := λ paths, (paths, [], Return paths).

Definition logger_debug (msg : string) (args : list log_arg) : Py unit :=
  λ paths, (paths, [ {| levelname := DEBUG; msg := msg; args := args;
                        exc_info := false |} ], Return tt).

Definition logger_error (msg : string) (args : list log_arg) (exc_info : bool)
  : Py unit :=
  λ paths, (paths, [ {| levelname := ERROR; msg := msg; args := args;
                        exc_info := exc_info |} ], Return tt).

(** [target[key] = v], where [target] is the object stored at position [loc]
    of [paths]. *)
Definition setitem (loc : list string) (target : value) (key : string)
    (v : value) : Py unit :=
  match target with
  | VDict _ =>
      λ paths,
        (alter_at loc (λ o, match o with
                            | VDict d => VDict (<[key := v]> d)
                            | _ => o
                            end) paths, [], Return tt)
  | _ => lift (Raise TypeError)
  end.

(** [for x in xs: body(x)] *)
Fixpoint for_each {A} (xs : list A) (body : A → Py unit) : Py unit :=
  match xs with
  | [] => mret tt
  | x :: xs' => body x ;; for_each xs' body
  end.

(** [try: body except Exception as e: handler(e)] *)
Definition try_except {A} (body : Py A) (handler : exn → Py A) : Py A :=
  λ paths,
    match body paths with
    | (paths1, l1, Raise e) =>
        match handler e paths1 with
        | (paths2, l2, o) => (paths2, l1 ++ l2, o)
        end
    | r => r
    end.

(** ** Routes, handlers and annotations *)

(** A [msgspec.Struct] subclass; only its [__name__] is read. *)
Record Struct : Type := { __name__ : string }.

(** Modelled from the spec: the type expressions of return annotations, whose
    declaration lives in the typing machinery the scanner module inspects
    (section 9: plain type, optional, union, generic wrapper). *)
Inductive type_expr : Type :=
  | TStruct (s : Struct)
  | TPlain (name : string)
  | TOptional (inner : type_expr)
  | TUnion (members : list type_expr)
  | TGeneric (base : string) (params : list type_expr).

(** A route handler: its [__name__] attribute, which plain functions have and
    [functools.partial] objects or instances of callable classes lack, and
    what [typing.get_type_hints(endpoint, include_extras=True)] gives. *)
Record Endpoint : Type := {
  endpoint_name : option string;
  get_type_hints : outcome (gmap string type_expr)
}.

Record APIRoute : Type := {
  path : string;
  methods : list string;
  status_code : option Z;
  endpoint : option Endpoint
}.

(** An element of [app.routes]. *)
Inductive BaseRoute : Type :=
  | IsAPIRoute (route : APIRoute)
  | OtherRoute.

(** [route.endpoint.__name__] *)
Definition getattr_name (e : Endpoint) : outcome string :=
  match endpoint_name e with
  | Some n => Return n
  | None => Raise AttributeError
  end.

(** ** The scanner *)

Module scanner.

(** Modelled from the spec: [extract_struct] of the module
    [fastapi_msgspec_openapi.scanner], which is not among the sources
    (section 4.1).  A record type is returned directly; a composite is
    resolved to the record type of its single resolving argument; anything
    else is absent. *)
Fixpoint extract_struct (t : type_expr) : option Struct :=
  match t with
  | TStruct s => Some s
  | TPlain _ => None
  | TOptional inner => extract_struct inner
  | TUnion ts | TGeneric _ ts =>
      match omap extract_struct ts with
      | [s] => Some s
      | _ => None
      end
  end.

End scanner.

(** ** The updater *)

Section updater.

(** The updater imports [extract_struct] from the scanner module; its result
    is all the updater depends on, so it is a parameter here. *)
Variable extract_struct : type_expr → outcome (option Struct).

(** The dictionary literal assigned at lines 55-62. *)
Definition response_entry (description : value) (struct : Struct) : value :=
  VDict {[ "description" := description;
           "content" := VDict {[ "application/json" :=
             VDict {[ "schema" :=
               VDict {[ "$ref" :=
                 VStr ("#/components/schemas/" +:+ __name__ struct) ]} ]} ]} ]}.

(** [_update_method_response(path, method, struct, status_code, paths)];
    the argument [paths] is the mutable object of the monad.  Nothing is
    written before the assignment of lines 55-62, so [paths[path]] and
    [endpoint_schema] are read once; the assignment goes through the position
    of [endpoint_schema["responses"]] in [paths]. *)
Definition _update_method_response (path method : string) (struct : Struct)
    (status_code : Z) : Py unit :=
  paths ← read;
  path_item ← lift (getitem paths path);
  present ← lift (contains method path_item);
  if negb present then
    logger_debug "Method %s not in path %s" [ArgStr (upper method); ArgStr path]
  else
    endpoint_schema ← lift (getitem path_item method);
    responses ← lift (get endpoint_schema "responses" (VDict ∅));
    let status_str := str status_code in
    documented ← lift (contains status_str responses);
    if negb documented then
      logger_debug "Status code %s not in responses for %s %s"
        [ArgStr status_str; ArgStr (upper method); ArgStr path]
    else
      response ← lift (getitem responses status_str);
      description ← lift (get response "description"
                            (VStr "Successful Response"));
      target ← lift (getitem endpoint_schema "responses");
      setitem [path; method; "responses"] target status_str
        (response_entry description struct);;
      logger_debug "Updated %s %s response %s to reference %s"
        [ArgStr (upper method); ArgStr path; ArgStr status_str;
         ArgStr (__name__ struct)].

(** [route.status_code or 200] *)
Definition status_code_or_200 (route : APIRoute) : Z :=
  match status_code route with
  | Some c => if c =? 0 then 200 else c
  | None => 200
  end.

(** The body of the [try] statement, lines 89-112; a [continue] ends it.
    A type expression and a record type are truthy objects, so [not
    return_type] and [not struct] hold exactly when the value is [None].
    The list [methods route] gives the methods in the order in which the
    set is iterated. *)
Definition try_body (route : APIRoute) (e : Endpoint) : Py unit :=
  hints ← lift (get_type_hints e);
  match hints !! "return" with
  | None => mret tt
  | Some return_type =>
      struct ← lift (extract_struct return_type);
      match struct with
      | None => mret tt
      | Some struct =>
          paths ← read;
          known ← lift (contains (path route) paths);
          if negb known then
            logger_debug "Path %s not in OpenAPI schema" [ArgStr (path route)]
          else
            for_each (methods route) (λ method,
              _update_method_response (path route) (lower method) struct
                (status_code_or_200 route))
      end
  end.

(** [except (NameError, AttributeError)] matches these classes. *)
Definition is_name_or_attribute_error (e : exn) : bool :=
  match e with
  | NameError | AttributeError => true
  | _ => false
  end.

(** The two [except] clauses, lines 114-127.  The arguments of the logging
    call are evaluated first, [route.endpoint.__name__] among them; the
    endpoint is not [None] here, the loop has skipped such routes. *)
Definition except_handler (e : Endpoint) (err : exn) : Py unit :=
  if is_name_or_attribute_error err then
    name ← lift (getattr_name e);
    logger_debug "Cannot resolve type hints for %s: %s (skipping route)"
      [ArgStr name; ArgExc err]
  else
    name ← lift (getattr_name e);
    logger_error "Failed to update response for %s: %s"
      [ArgStr name; ArgExc err] true.

(** One iteration of [for route in app.routes]. *)
Definition route_step (route : BaseRoute) : Py unit :=
  match route with
  | OtherRoute => mret tt
  | IsAPIRoute r =>
      match endpoint r with
      | None => mret tt
      | Some e => try_except (try_body r e) (except_handler e)
      end
  end.

(** [update_route_responses(openapi_schema, app)].  [paths] is the object
    stored under ["paths"], or a fresh dictionary that the document never
    sees; the result is the document after the call, the records logged and
    whether the call returned or raised. *)
Definition update_route_responses (openapi_schema : gmap string value)
    (app : list BaseRoute)
  : gmap string value * list LogRecord * outcome unit :=
  let paths := default (VDict ∅) (openapi_schema !! "paths") in
  match for_each app route_step paths with
  | (paths', records, o) =>
      (match openapi_schema !! "paths" with
       | Some _ => <["paths" := paths']> openapi_schema
       | None => openapi_schema
       end, records, o)
  end.

End updater.

(** The updater with the scanner's extractor, which raises nothing. *)
Definition extract (t : type_expr) : outcome (option Struct) :=
  Return (scanner.extract_struct t).

Module Examples.

Definition ItemOut : Struct := {| __name__ := "ItemOut" |}.

Definition handler (t : type_expr) : Endpoint :=
  {| endpoint_name := Some "list_items";
     get_type_hints := Return {[ "return" := t ]} |}.

Definition items_route : APIRoute :=
  {| path := "/items"; methods := ["GET"]; status_code := None;
     endpoint := Some (handler (TStruct ItemOut)) |}.

Definition items_paths : value :=
  VDict {[ "/items" := VDict {[ "get" := VDict {[ "responses" :=
    VDict {[ "200" := VDict {[ "description" := VStr "OK" ]} ]} ]} ]} ]}.

Definition items_doc : gmap string value := {[ "paths" := items_paths ]}.

(** A handler wrapped in [functools.partial]: it has no [__name__], and
    [get_type_hints] rejects it with a [TypeError]. *)
Definition partial_endpoint : Endpoint :=
  {| endpoint_name := None; get_type_hints := Raise TypeError |}.

Definition partial_route : APIRoute :=
  {| path := "/items"; methods := ["GET"]; status_code := None;
     endpoint := Some partial_endpoint |}.

(** An instance of a callable class that carries an annotation naming an
    undefined type: it has no [__name__], and [get_type_hints] raises
    [NameError]. *)
Definition forward_ref_instance : Endpoint :=
  {| endpoint_name := None; get_type_hints := Raise NameError |}.

Definition forward_ref_route : APIRoute :=
  {| path := "/items"; methods := ["GET"]; status_code := None;
     endpoint := Some forward_ref_instance |}.

(** A second record type and a second route for [GET /items]. *)
Definition OtherOut : Struct := {| __name__ := "OtherOut" |}.

Definition other_route : APIRoute :=
  {| path := "/items"; methods := ["GET"]; status_code := None;
     endpoint := Some (handler (TStruct OtherOut)) |}.

(** A route declared with status code 0, and a document that has responses
    under ["0"] and under ["200"]. *)
Definition zero_route : APIRoute :=
  {| path := "/items"; methods := ["GET"]; status_code := Some 0;
     endpoint := Some (handler (TStruct ItemOut)) |}.

Definition zero_doc : gmap string value :=
  {[ "paths" := VDict {[ "/items" := VDict {[ "get" := VDict {[ "responses" :=
       VDict {[ "0" := VDict {[ "description" := VStr "Zero" ]};
                "200" := VDict {[ "description" := VStr "OK" ]} ]} ]} ]} ]} ]}.

(** A handler that returns a plain string. *)
Definition plain_route : APIRoute :=
  {| path := "/items"; methods := ["GET"]; status_code := None;
     endpoint := Some (handler (TPlain "str")) |}.

End Examples.

(** Further routes and documents, used to instantiate the properties of the
    last part. *)
Module Scenarios.

Import Examples.

(** A route with no endpoint. *)
Definition no_endpoint_route : APIRoute :=
  {| path := "/items"; methods := ["GET"]; status_code := None;
     endpoint := None |}.

(** A route for a path the document does not have. *)
Definition users_route : APIRoute :=
  {| path := "/users"; methods := ["GET"]; status_code := None;
     endpoint := Some (handler (TStruct ItemOut)) |}.

(** A handler with a name on which [get_type_hints] fails otherwise than
    with a [NameError], and one whose annotations do not resolve. *)
Definition broken_handler : Endpoint :=
  {| endpoint_name := Some "broken";
     get_type_hints := Raise (OtherError "SyntaxError") |}.

Definition broken_route : APIRoute :=
  {| path := "/items"; methods := ["GET"]; status_code := None;
     endpoint := Some broken_handler |}.

Definition forward_ref_handler : Endpoint :=
  {| endpoint_name := Some "list_items"; get_type_hints := Raise NameError |}.

Definition named_forward_ref_route : APIRoute :=
  {| path := "/items"; methods := ["GET"]; status_code := None;
     endpoint := Some forward_ref_handler |}.

(** A document whose [GET /items] response under ["200"] is [null], with a
    sound [POST /items] next to it, and a route for both methods. *)
Definition null_response_paths : value :=
  VDict {[ "/items" := VDict {[
    "get" := VDict {[ "responses" := VDict {[ "200" := VNone ]} ]};
    "post" := VDict {[ "responses" :=
      VDict {[ "200" := VDict {[ "description" := VStr "OK" ]} ]} ]} ]} ]}.

Definition get_post_route : APIRoute :=
  {| path := "/items"; methods := ["GET"; "POST"]; status_code := None;
     endpoint := Some (handler (TStruct ItemOut)) |}.

Definition post_get_route : APIRoute :=
  {| path := "/items"; methods := ["POST"; "GET"]; status_code := None;
     endpoint := Some (handler (TStruct ItemOut)) |}.

Definition lowercase_route : APIRoute :=
  {| path := "/items"; methods := ["get"]; status_code := None;
     endpoint := Some (handler (TStruct ItemOut)) |}.

(** A document with [GET] and [POST] on ["/items"], and one with a
    component registry next to the path map. *)
Definition get_post_paths : value :=
  VDict {[ "/items" := VDict {[
    "get" := VDict {[ "responses" :=
      VDict {[ "200" := VDict {[ "description" := VStr "OK" ]} ]} ]};
    "post" := VDict {[ "responses" :=
      VDict {[ "200" := VDict ∅ ]} ]} ]} ]}.

Definition items_path_map : gmap string value :=
  {[ "/items" := VDict {[ "get" := VDict {[ "responses" :=
       VDict {[ "200" := VDict {[ "description" := VStr "OK" ]} ]} ]} ]} ]}.


End Scenarios.

(** * Notions used to state the properties *)

(** Whether a value is a dictionary. *)
Definition is_dict (v : value) : bool :=
  match v with
  | VDict _ => true
  | _ => false
  end.

(** Two positions diverge when they differ at an index both have. *)
Fixpoint diverge (ks ks' : list string) : Prop :=
  match ks, ks' with
  | k :: r, k' :: r' => k ≠ k' ∨ (k = k' ∧ diverge r r')
  | _, _ => False
  end.

(** Two values of the same kind: both dictionaries, or equal. *)
Definition same_kind (v w : value) : Prop :=
  match v, w with
  | VDict _, VDict _ => True
  | _, _ => v = w
  end.

(** [agree n v w]: the trees are equal down to depth [n], where they hold
    values of the same kind. *)
Fixpoint agree (n : nat) (v w : value) : Prop :=
  match n with
  | O => same_kind v w
  | S n' =>
      match v, w with
      | VDict a, VDict b => ∀ k, option_Forall2 (agree n') (a !! k) (b !! k)
      | _, _ => v = w
      end
  end.

(** What the assignment of lines 55-62 does to the response object it
    replaces: the description is kept, or defaulted, and the content refers
    to the record type. *)
Definition rewrite (struct : Struct) (response : value) : value :=
  match response with
  | VDict o =>
      response_entry (default (VStr "Successful Response") (o !! "description"))
        struct
  | _ => response
  end.

(** The position, inside [paths], of the response object of a path, a
    lowercase method and a status code. *)
Definition entry_pos (path method : string) (status_code : Z) : list string :=
  [path; method; "responses"; str status_code].

(** A write: the position of a response object and the record type it is
    made to refer to. *)
Definition write : Type := list string * Struct.

Definition apply_write (w : write) (paths : value) : value :=
  alter_at w.1 (rewrite w.2) paths.

Definition apply_writes (ws : list write) (paths : value) : value :=
  foldl (λ σ w, apply_write w σ) paths ws.

(** A computation is regular when, on all trees that agree to depth 4 with a
    given one, it performs the same writes of response objects, logs the
    same records and ends the same way. *)
Definition regular (P : write → Prop) (c : Py unit) : Prop :=
  ∀ σ, ∃ ws l o,
    Forall (λ w, length w.1 = 4%nat ∧ P w) ws ∧
    ∀ σ', agree 4 σ σ' → c σ' = (apply_writes ws σ', l, o).

(** The handler [e] has a return annotation that [extract_struct] resolves to
    the record type [struct]. *)
Definition resolves (extract_struct : type_expr → outcome (option Struct))
    (e : Endpoint) (struct : Struct) : Prop :=
  ∃ hints return_type,
    get_type_hints e = Return hints ∧
    hints !! "return" = Some return_type ∧
    extract_struct return_type = Return (Some struct).

(** The writes a route can perform: one per method, at the route's path and
    status code, for the record type of its handler. *)
Definition route_targets (extract_struct : type_expr → outcome (option Struct))
    (r : APIRoute) (w : write) : Prop :=
  ∃ e method,
    endpoint r = Some e ∧ resolves extract_struct e w.2 ∧
    method ∈ methods r ∧
    w.1 = entry_pos (path r) (lower method) (status_code_or_200 r).

Definition targets (extract_struct : type_expr → outcome (option Struct))
    (app : list BaseRoute) (w : write) : Prop :=
  ∃ r, IsAPIRoute r ∈ app ∧ route_targets extract_struct r w.

(** Every handler of the route table has a [__name__]. *)
Definition named (app : list BaseRoute) : Prop :=
  ∀ r e, IsAPIRoute r ∈ app → endpoint r = Some e → is_Some (endpoint_name e).

(** Whether [v] is a dictionary whose values all satisfy [f]. *)
Definition all_values (f : value → bool) (v : value) : bool :=
  match v with
  | VDict d => forallb (λ kv, f kv.2) (map_to_list d)
  | _ => false
  end.

(** Modelled from the spec: the shape of an operation object and of the path
    map of an OpenAPI-style document (section 6), which the code does not
    declare.  An operation object is a mapping whose ["responses"], if any,
    maps status strings to objects; the path map sends each path to a
    mapping of operation objects. *)
Definition operation_shaped (op : value) : bool :=
  match op with
  | VDict o =>
      match o !! "responses" with
      | Some r => all_values is_dict r
      | None => true
      end
  | _ => false
  end.

Definition paths_shaped (paths : value) : bool :=
  all_values (all_values operation_shaped) paths.

(** * Properties *)

(** ** Positions: reading and rewriting a tree *)

Section positions.

Implicit Types (ks : list string) (f g : value → value) (v : value).

Lemma alter_at_ext ks f g v :
  (∀ x, get_at ks v = Some x → f x = g x) →
  alter_at ks f v = alter_at ks g v.
Proof.
  revert v. induction ks as [|k ks IH]; intros v Hfg; simpl in *.
  - by apply Hfg.
  - destruct v; try done. f_equal. apply alter_ext. intros x Hx.
    apply IH. intros y Hy. apply Hfg. by rewrite Hx.
Qed.

Lemma alter_at_id ks f v :
  (∀ x, get_at ks v = Some x → f x = x) → alter_at ks f v = v.
Proof.
  revert v. induction ks as [|k ks IH]; intros v Hf; simpl in *.
  - by apply Hf.
  - destruct v; try done. f_equal. apply alter_id. intros x Hx.
    apply IH. intros y Hy. apply Hf. by rewrite Hx.
Qed.

Lemma alter_at_compose ks f g v :
  alter_at ks f (alter_at ks g v) = alter_at ks (f ∘ g) v.
Proof.
  revert v. induction ks as [|k ks IH]; intros v; simpl; [done|].
  destruct v; try done. f_equal. rewrite alter_alter_eq.
  apply alter_ext. intros x _. apply IH.
Qed.

Lemma alter_at_commute ks ks' f g v :
  length ks = length ks' → ks ≠ ks' →
  alter_at ks f (alter_at ks' g v) = alter_at ks' g (alter_at ks f v).
Proof.
  revert ks' v. induction ks as [|k ks IH]; intros [|k' ks'] v Hlen Hne;
    simplify_eq/=.
  destruct v; try done. f_equal.
  destruct (decide (k = k')) as [->|Hk].
  - rewrite !alter_alter_eq. apply alter_ext. intros x _. simpl.
    apply IH; [done|]. congruence.
  - by apply alter_alter_ne.
Qed.

Lemma diverge_same_length ks ks' :
  length ks = length ks' → ks ≠ ks' → diverge ks ks'.
Proof.
  revert ks'. induction ks as [|k ks IH]; intros [|k' ks'] Hlen Hne;
    simplify_eq/=.
  destruct (decide (k = k')) as [->|Hk]; [right|by left].
  split; [done|]. apply IH; [done|]. congruence.
Qed.

Lemma get_at_alter_at_diverge ks ks' f v :
  diverge ks ks' → get_at ks (alter_at ks' f v) = get_at ks v.
Proof.
  revert ks' v. induction ks as [|k ks IH]; intros [|k' ks'] v Hd;
    simpl in *; try done.
  destruct v; try done. destruct Hd as [Hk|[-> Hd]].
  - by rewrite lookup_alter_ne.
  - rewrite lookup_alter_eq. destruct (d !! k') as [x|]; simpl; [|done].
    by apply IH.
Qed.

Lemma get_at_alter_at_prefix ks rest f v :
  get_at ks (alter_at (ks ++ rest) f v) = alter_at rest f <$> get_at ks v.
Proof.
  revert v. induction ks as [|k ks IH]; intros v; simpl; [done|].
  destruct v; try by destruct rest.
  rewrite lookup_alter_eq. destruct (d !! k) as [x|]; simpl; [|done].
  apply IH.
Qed.

Lemma get_at_alter_at_eq ks f v :
  get_at ks (alter_at ks f v) = f <$> get_at ks v.
Proof.
  pose proof (get_at_alter_at_prefix ks [] f v) as H.
  by rewrite app_nil_r in H.
Qed.

Lemma get_at_app ks ks' v :
  get_at (ks ++ ks') v = get_at ks v ≫= get_at ks'.
Proof.
  revert v. induction ks as [|k ks IH]; intros v; simpl; [done|].
  destruct v; try done. destruct (d !! k); simpl; [apply IH|done].
Qed.

(** Rewriting at a position neither creates nor removes a position that is
    not below it. *)
Lemma get_at_alter_at_is_Some ks ks' f v :
  (length ks ≤ length ks')%nat →
  is_Some (get_at ks (alter_at ks' f v)) ↔ is_Some (get_at ks v).
Proof.
  revert ks' v. induction ks as [|k ks IH]; intros ks' v Hlen; simpl.
  - split; intros _; eauto.
  - destruct ks' as [|k' ks']; simpl in *; [lia|].
    destruct v; try done.
    destruct (decide (k' = k)) as [->|Hk].
    + rewrite lookup_alter_eq. destruct (d !! k) as [x|]; simpl; [|done].
      apply IH. lia.
    + by rewrite lookup_alter_ne.
Qed.

End positions.

(** ** Trees that differ only in their response objects *)

Lemma same_kind_refl v : same_kind v v.
Proof. by destruct v. Qed.

Lemma same_kind_sym v w : same_kind v w → same_kind w v.
Proof. destruct v, w; simpl; done. Qed.

Lemma same_kind_trans u v w : same_kind u v → same_kind v w → same_kind u w.
Proof. destruct u, v, w; simpl; congruence. Qed.

Lemma agree_refl n v : agree n v v.
Proof.
  revert v. induction n as [|n IH]; intros v; simpl.
  - apply same_kind_refl.
  - destruct v; try done. intros k. destruct (d !! k); constructor. apply IH.
Qed.

Lemma agree_sym n v w : agree n v w → agree n w v.
Proof.
  revert v w. induction n as [|n IH]; intros v w; simpl.
  - apply same_kind_sym.
  - destruct v, w; try done. intros H k. specialize (H k).
    destruct H; constructor. by apply IH.
Qed.

Lemma agree_trans n u v w : agree n u v → agree n v w → agree n u w.
Proof.
  revert u v w. induction n as [|n IH]; intros u v w; simpl.
  - apply same_kind_trans.
  - destruct u, v, w; try done; try congruence.
    intros H1 H2 k. specialize (H1 k). specialize (H2 k).
    destruct H1; inversion H2; subst; constructor. by eapply IH.
Qed.

Lemma agree_alter_at ks f v :
  (∀ x, same_kind (f x) x) → agree (length ks) (alter_at ks f v) v.
Proof.
  intros Hf. revert v. induction ks as [|k ks IH]; intros v; simpl; [done|].
  destruct v; try done. intros k'.
  destruct (decide (k = k')) as [->|Hk].
  - rewrite lookup_alter_eq. destruct (d !! k'); constructor. apply IH.
  - rewrite lookup_alter_ne by done. destruct (d !! k'); constructor.
    apply agree_refl.
Qed.


Lemma contains_agree n key v w :
  agree (S n) v w → contains key v = contains key w.
Proof.
  destruct v, w; simpl; try done; try congruence.
  intros H. specialize (H key). f_equal. apply bool_decide_ext.
  destruct H; split; intros [? ?]; simplify_eq; eauto.
Qed.

(** ** Writes of response objects *)

Lemma rewrite_same_kind struct x : same_kind (rewrite struct x) x.
Proof. by destruct x. Qed.


Lemma rewrite_rewrite struct struct' x :
  rewrite struct (rewrite struct' x) = rewrite struct x.
Proof. by destruct x. Qed.

Lemma agree_apply_write w σ :
  length w.1 = 4%nat → agree 4 (apply_write w σ) σ.
Proof.
  intros Hlen. unfold apply_write. rewrite <- Hlen.
  apply agree_alter_at, rewrite_same_kind.
Qed.

Lemma agree_apply_writes (P : write → Prop) ws σ :
  Forall (λ w, length w.1 = 4%nat ∧ P w) ws → agree 4 (apply_writes ws σ) σ.
Proof.
  intros Hws. revert σ. induction Hws as [|w ws [Hw _] _ IH]; intros σ.
  - apply agree_refl.
  - change (apply_writes (w :: ws) σ) with (apply_writes ws (apply_write w σ)).
    eapply agree_trans; [apply IH|]. by apply agree_apply_write.
Qed.

Lemma apply_writes_app ws1 ws2 σ :
  apply_writes (ws1 ++ ws2) σ = apply_writes ws2 (apply_writes ws1 σ).
Proof. apply foldl_app. Qed.

Lemma apply_write_idemp w σ : apply_write w (apply_write w σ) = apply_write w σ.
Proof.
  unfold apply_write. rewrite alter_at_compose. apply alter_at_ext.
  intros x _. apply rewrite_rewrite.
Qed.

(** A write absorbs an earlier copy of itself. *)
Lemma apply_write_absorb a b σ :
  length a.1 = length b.1 →
  apply_write a (apply_write b (apply_write a σ)) =
  apply_write a (apply_write b σ).
Proof.
  intros Hlen. unfold apply_write.
  destruct (decide (a.1 = b.1)) as [Heq|Hne].
  - rewrite <- Heq, !alter_at_compose. apply alter_at_ext.
    intros x _. simpl. by rewrite !rewrite_rewrite.
  - rewrite (alter_at_commute b.1 a.1) by (done || congruence).
    by rewrite alter_at_compose, (alter_at_ext _ _ (rewrite a.2))
      by (intros; apply rewrite_rewrite).
Qed.

Lemma apply_writes_absorb (P : write → Prop) ws a σ :
  length a.1 = 4%nat →
  Forall (λ w, length w.1 = 4%nat ∧ P w) ws →
  apply_write a (apply_writes ws (apply_write a σ)) =
  apply_write a (apply_writes ws σ).
Proof.
  intros Ha Hws. revert σ.
  induction ws as [|b ws IH] using rev_ind; intros σ.
  - apply apply_write_idemp.
  - apply Forall_app in Hws as [Hws [[Hb _] _]%Forall_cons].
    rewrite !apply_writes_app. simpl.
    rewrite <- (apply_write_absorb a b (apply_writes ws (apply_write a σ)))
      by congruence.
    rewrite IH by done. apply apply_write_absorb. congruence.
Qed.

(** Performing a list of writes twice is performing it once. *)
Lemma apply_writes_idemp (P : write → Prop) ws σ :
  Forall (λ w, length w.1 = 4%nat ∧ P w) ws →
  apply_writes ws (apply_writes ws σ) = apply_writes ws σ.
Proof.
  revert σ. induction ws as [|a ws IH] using rev_ind; intros σ Hws; [done|].
  apply Forall_app in Hws as [Hws [[Ha _] _]%Forall_cons].
  rewrite !apply_writes_app. simpl.
  rewrite (apply_writes_absorb P) by done. by rewrite IH.
Qed.

(** ** One call of [_update_method_response] *)

Lemma bind_read {B} (k : value → Py B) σ : (read ≫= k) σ = k σ σ.
Proof. unfold mbind, Py_bind, read. by destruct (k σ σ) as [[??]?]. Qed.

Lemma bind_lift_return {A B} (a : A) (k : A → Py B) σ :
  (lift (Return a) ≫= k) σ = k a σ.
Proof. unfold mbind, Py_bind, lift. by destruct (k a σ) as [[??]?]. Qed.

Lemma bind_lift_raise {A B} e (k : A → Py B) σ :
  (lift (Raise e) ≫= k) σ = (σ, [], Raise e).
Proof. done. Qed.

Lemma agree_S_inv n v w :
  agree (S n) v w →
  (∃ a b, v = VDict a ∧ w = VDict b ∧
          ∀ k, option_Forall2 (agree n) (a !! k) (b !! k)) ∨
  (is_dict v = false ∧ w = v).
Proof.
  destruct v, w; simpl; intros H; simplify_eq; try (by right).
  left. by eexists _, _.
Qed.

Lemma agree_O_inv v w :
  agree 0 v w →
  (∃ a b, v = VDict a ∧ w = VDict b) ∨ (is_dict v = false ∧ w = v).
Proof.
  destruct v, w; simpl; intros H; simplify_eq; try (by right).
  left. by eexists _, _.
Qed.


Lemma getitem_nondict v k : is_dict v = false → getitem v k = Raise TypeError.
Proof. by destruct v. Qed.

Lemma get_nondict v k d : is_dict v = false → get v k d = Raise AttributeError.
Proof. by destruct v. Qed.

Lemma option_Forall2_inv {A} (R : A → A → Prop) (x y : option A) :
  option_Forall2 R x y →
  (∃ a b, x = Some a ∧ y = Some b ∧ R a b) ∨ (x = None ∧ y = None).
Proof. destruct 1; [left|right]; [by eexists _, _|done]. Qed.

Lemma alter_at_lookup k ks f d x :
  d !! k = Some x →
  alter_at (k :: ks) f (VDict d) = VDict (<[k := alter_at ks f x]> d).
Proof. intros H. simpl. by erewrite alter_alt_Some. Qed.

Lemma alter_at_lookup_None k ks f (d : gmap string value) :
  d !! k = None → alter_at (k :: ks) f (VDict d) = VDict d.
Proof. intros H. simpl. f_equal. apply alter_id. intros x. by rewrite H. Qed.

Lemma alter_at_nondict k ks f v :
  is_dict v = false → alter_at (k :: ks) f v = v.
Proof. by destruct v. Qed.

Lemma rewrite_nondict struct v : is_dict v = false → rewrite struct v = v.
Proof. by destruct v. Qed.

Ltac untouched :=
  unfold entry_pos;
  repeat first
    [ erewrite alter_at_lookup by eassumption
    | rewrite alter_at_lookup_None by assumption
    | rewrite alter_at_nondict by done ];
  cbn [alter_at]; rewrite ?rewrite_nondict by done;
  repeat match goal with
         | H : ?d !! ?k = Some ?x |- context [<[?k := ?x]> ?d] =>
             rewrite (insert_id d k x H)
         end.

Ltac miss := eexists _, _; split; untouched; reflexivity.

Ltac level H k x y E E' Hxy :=
  destruct (option_Forall2_inv _ _ _ (H k)) as [(x & y & E & E' & Hxy)|[E E']];
  cbn [getitem get]; rewrite ?E, ?E'.

(** The last steps of the call, from the dictionary lookups that reach the
    response object. *)
Lemma method_write_run path method struct sc qs qo qr ro
    (re : gmap string value) :
  qs !! path = Some (VDict qo) → qo !! method = Some (VDict qr) →
  qr !! "responses" = Some (VDict ro) → ro !! str sc = Some (VDict re) →
  (lift match re !! "description" with
        | Some v => Return v
        | None => Return (VStr "Successful Response")
        end
   ≫= λ description : value,
        lift (Return (VDict ro))
        ≫= λ target : value,
             setitem [path; method; "responses"] target
               (str sc) (response_entry description struct)
             ≫= λ _ : (),
                  logger_debug "Updated %s %s response %s to reference %s"
                    [ArgStr (upper method); ArgStr path;
                     ArgStr (str sc); ArgStr (__name__ struct)])
    (VDict qs) =
  (alter_at (entry_pos path method sc) (rewrite struct) (VDict qs),
   [ {| levelname := DEBUG;
        msg := "Updated %s %s response %s to reference %s";
        args := [ArgStr (upper method); ArgStr path;
                 ArgStr (str sc); ArgStr (__name__ struct)];
        exc_info := false |} ], Return tt).
Proof.
  intros Q1 Q2 Q3 Q4. unfold entry_pos.
  rewrite (alter_at_lookup _ _ _ _ _ Q1), (alter_at_lookup _ _ _ _ _ Q2),
    (alter_at_lookup _ _ _ _ _ Q3), (alter_at_lookup _ _ _ _ _ Q4).
  cbn [alter_at rewrite].
  destruct (re !! "description") as [d|]; rewrite !bind_lift_return;
    unfold setitem, mbind, Py_bind, logger_debug;
    rewrite (alter_at_lookup _ _ _ _ _ Q1), (alter_at_lookup _ _ _ _ _ Q2),
      (alter_at_lookup _ _ _ _ _ Q3); reflexivity.
Qed.

Lemma get_at_entry_inv a b c d σ e :
  get_at [a; b; c; d] σ = Some e →
  ∃ qs qo qr ro,
    σ = VDict qs ∧ qs !! a = Some (VDict qo) ∧ qo !! b = Some (VDict qr) ∧
    qr !! c = Some (VDict ro) ∧ ro !! d = Some e.
Proof.
  intros H. destruct σ as [| | | | |qs]; try done. simpl in H.
  destruct (qs !! a) as [[| | | | |qo]|] eqn:Q1; try done. simpl in H.
  destruct (qo !! b) as [[| | | | |qr]|] eqn:Q2; try done. simpl in H.
  destruct (qr !! c) as [[| | | | |ro]|] eqn:Q3; try done. simpl in H.
  destruct (ro !! d) as [x|] eqn:Q4; simplify_eq/=.
  by eexists _, _, _, _.
Qed.

(** A call that finds a response object overwrites it, logs the update and
    returns. *)
Lemma method_run_hit path method struct sc σ re :
  get_at (entry_pos path method sc) σ = Some (VDict re) →
  _update_method_response path method struct sc σ =
  (alter_at (entry_pos path method sc) (rewrite struct) σ,
   [ {| levelname := DEBUG;
        msg := "Updated %s %s response %s to reference %s";
        args := [ArgStr (upper method); ArgStr path;
                 ArgStr (str sc); ArgStr (__name__ struct)];
        exc_info := false |} ], Return tt).
Proof.
  intros (qs & qo & qr & ro & -> & Q1 & Q2 & Q3 & Q4)%get_at_entry_inv.
  unfold _update_method_response. rewrite bind_read. cbn [getitem].
  rewrite Q1, bind_lift_return. cbn [contains].
  rewrite bool_decide_eq_true_2, bind_lift_return by eauto.
  cbn [negb getitem]. rewrite Q2, bind_lift_return. cbn [get].
  rewrite Q3, bind_lift_return. cbn [contains].
  rewrite bool_decide_eq_true_2, bind_lift_return by eauto.
  cbn [negb getitem]. rewrite Q4, bind_lift_return. cbn [get].
  rewrite Q3. eapply method_write_run; eassumption.
Qed.

Lemma method_run_agree path method struct sc σ σ' :
  agree 4 σ σ' →
  ∃ l o,
    _update_method_response path method struct sc σ =
      (alter_at (entry_pos path method sc) (rewrite struct) σ, l, o) ∧
    _update_method_response path method struct sc σ' =
      (alter_at (entry_pos path method sc) (rewrite struct) σ', l, o).
Proof.
  intros H. unfold _update_method_response. rewrite !bind_read.
  apply agree_S_inv in H as [(ps & ps' & -> & -> & H)|[Hσ ->]]; cycle 1.
  { rewrite getitem_nondict, bind_lift_raise by done. miss. }
  level H path item item' E1 E1' Hitem; rewrite ?bind_lift_raise; [|miss].
  rewrite !bind_lift_return, <- (contains_agree _ method _ _ Hitem).
  apply agree_S_inv in Hitem as [(ops & ops' & -> & -> & Hitem)|[Hi ->]];
    cycle 1.
  { destruct (contains method item) as [[]|e];
      rewrite ?bind_lift_raise, ?bind_lift_return; cbn [negb];
      rewrite ?getitem_nondict, ?bind_lift_raise by done; miss. }
  cbn [contains]. rewrite !bind_lift_return.
  level Hitem method op op' E2 E2' Hop; cycle 1.
  { rewrite !bool_decide_eq_false_2 by (by intros [??]). cbn [negb]. miss. }
  rewrite !bool_decide_eq_true_2 by eauto. cbn [negb].
  rewrite !bind_lift_return.
  apply agree_S_inv in Hop as [(o & o' & -> & -> & Hop)|[Ho ->]]; cycle 1.
  { rewrite get_nondict, !bind_lift_raise by done. miss. }
  level Hop "responses" r r' E3 E3' Hr; rewrite !bind_lift_return; cycle 1.
  { cbn [contains]. rewrite lookup_empty.
    rewrite !bool_decide_eq_false_2 by (by intros [??]).
    rewrite !bind_lift_return. cbn [negb]. miss. }
  rewrite <- (contains_agree _ (str sc) _ _ Hr).
  apply agree_S_inv in Hr as [(rs & rs' & -> & -> & Hr)|[Hrn ->]]; cycle 1.
  { destruct (contains (str sc) r) as [[]|e];
      rewrite ?bind_lift_raise, ?bind_lift_return; cbn [negb];
      rewrite ?getitem_nondict, ?bind_lift_raise by done; miss. }
  cbn [contains]. rewrite !bind_lift_return.
  level Hr (str sc) e e' E4 E4' He; cycle 1.
  { rewrite !bool_decide_eq_false_2 by (by intros [??]). cbn [negb]. miss. }
  rewrite !bool_decide_eq_true_2 by eauto. cbn [negb].
  rewrite !bind_lift_return.
  apply agree_O_inv in He as [(eo & eo' & -> & ->)|[Hen ->]]; cycle 1.
  { rewrite get_nondict, !bind_lift_raise by done. miss. }
  cbn [get].
  eexists _, _; split; eapply method_write_run; eassumption.
Qed.

(** The state a call leaves is always the tree with the response object at
    its position rewritten. *)
Lemma method_run_state path method struct sc σ :
  (_update_method_response path method struct sc σ).1.1 =
  alter_at (entry_pos path method sc) (rewrite struct) σ.
Proof.
  destruct (method_run_agree path method struct sc σ σ (agree_refl _ _))
    as (l & o & -> & _). done.
Qed.

(** ** What a list of writes leaves alone *)

Lemma get_at_apply_writes_diverge ks ws σ :
  Forall (λ w : write, diverge ks w.1) ws →
  get_at ks (apply_writes ws σ) = get_at ks σ.
Proof.
  intros Hws. revert σ. induction Hws as [|w ws Hw _ IH]; intros σ; [done|].
  change (apply_writes (w :: ws) σ) with (apply_writes ws (apply_write w σ)).
  rewrite IH. by apply get_at_alter_at_diverge.
Qed.

Lemma get_at_apply_writes_is_Some (P : write → Prop) ks ws σ :
  (length ks ≤ 4)%nat →
  Forall (λ w, length w.1 = 4%nat ∧ P w) ws →
  is_Some (get_at ks (apply_writes ws σ)) ↔ is_Some (get_at ks σ).
Proof.
  intros Hks Hws. revert σ.
  induction Hws as [|w ws [Hw _] _ IH]; intros σ; [done|].
  change (apply_writes (w :: ws) σ) with (apply_writes ws (apply_write w σ)).
  rewrite IH. apply get_at_alter_at_is_Some. lia.
Qed.

Lemma get_at_paths_alter ks (f : value → value) (doc : gmap string value) :
  (∀ v, get_at ks (f v) = get_at ks v) →
  get_at ("paths" :: ks) (VDict (alter f "paths" doc)) =
  get_at ("paths" :: ks) (VDict doc).
Proof.
  intros Hf. cbn [get_at]. rewrite lookup_alter_eq.
  destruct (doc !! "paths"); simpl; [apply Hf|done].
Qed.

(** C5. When [_update_method_response] finds a response object at the
    path, method and stringified status code, it returns normally and the
    entry becomes a dictionary with two keys: ["description"] keeps its
    former value if the key was present and is otherwise
    ["Successful Response"], and ["content"] holds the single media type
    ["application/json"] whose schema is a ["$ref"] to
    ["#/components/schemas/"] followed by the record type's name. *)
Theorem response_entry_overwritten (path method : string) (struct : Struct)
    (sc : Z) (paths : value) (o : gmap string value) :
  get_at [path; method; "responses"; str sc] paths = Some (VDict o) →
  let r := _update_method_response path method struct sc paths in
  r.2 = Return tt ∧
  get_at [path; method; "responses"; str sc] r.1.1 =
    Some (VDict {[
      "description" := match o !! "description" with
                       | Some d => d
                       | None => VStr "Successful Response"
                       end;
      "content" := VDict {[ "application/json" :=
        VDict {[ "schema" :=
          VDict {[ "$ref" :=
            VStr ("#/components/schemas/" +:+ __name__ struct) ]} ]} ]} ]}).
Proof.
  intros Hpos. cbv zeta.
  rewrite (method_run_hit path method struct sc paths o Hpos).
  split; [done|]. cbn [fst snd]. unfold entry_pos.
  rewrite get_at_alter_at_eq, Hpos. cbn [fmap option_fmap option_map rewrite].
  unfold response_entry. by destruct (o !! "description").
Qed.

(** The call on the scenario of the specification: ["/items"], [get],
    status 200, description ["OK"]. *)
Lemma response_entry_overwritten_witness :
  let r := _update_method_response "/items" "get" Examples.ItemOut 200
             Examples.items_paths in
  r.2 = Return tt ∧
  get_at ["/items"; "get"; "responses"; str 200] r.1.1 =
    Some (VDict {[
      "description" := VStr "OK";
      "content" := VDict {[ "application/json" :=
        VDict {[ "schema" :=
          VDict {[ "$ref" := VStr "#/components/schemas/ItemOut" ]} ]} ]} ]}).
Proof.
  exact (response_entry_overwritten "/items" "get" Examples.ItemOut 200
           Examples.items_paths {[ "description" := VStr "OK" ]} eq_refl).
Defined.

(** ** Regular computations *)

Lemma bind_run {A B} (m : Py A) (k : A → Py B) σ :
  (m ≫= k) σ =
  match m σ with
  | (σ1, l1, Return a) =>
      match k a σ1 with
      | (σ2, l2, o) => (σ2, l1 ++ l2, o)
      end
  | (σ1, l1, Raise e) => (σ1, l1, Raise e)
  end.
Proof. reflexivity. Qed.

Lemma regular_mono (P Q : write → Prop) c :
  (∀ w, P w → Q w) → regular P c → regular Q c.
Proof.
  intros HPQ Hc σ. destruct (Hc σ) as (ws & l & o & Hws & Hrun).
  exists ws, l, o. split; [|done].
  eapply Forall_impl; [done|]. intros w [? ?]. auto.
Qed.

Lemma regular_const (P : write → Prop) l o :
  regular P (λ σ, (σ, l, o)).
Proof. intros σ. exists [], l, o. split; [constructor|done]. Qed.

Lemma regular_ret P : regular P (mret tt).
Proof. apply regular_const. Qed.

Lemma regular_logger_debug P msg args : regular P (logger_debug msg args).
Proof. apply regular_const. Qed.

Lemma regular_logger_error P msg args exc : regular P (logger_error msg args exc).
Proof. apply regular_const. Qed.

Lemma regular_bind P (m : Py unit) (k : unit → Py unit) :
  regular P m → (∀ a, regular P (k a)) → regular P (m ≫= k).
Proof.
  intros Hm Hk σ. destruct (Hm σ) as (ws1 & l1 & o1 & Hws1 & Hrun1).
  destruct o1 as [a|e].
  - destruct (Hk a (apply_writes ws1 σ)) as (ws2 & l2 & o2 & Hws2 & Hrun2).
    exists (ws1 ++ ws2), (l1 ++ l2), o2. split; [by apply Forall_app|].
    intros σ' Hσ'. rewrite bind_run, (Hrun1 σ' Hσ'), Hrun2.
    + by rewrite apply_writes_app.
    + eapply agree_trans; [by eapply agree_apply_writes|].
      eapply agree_trans; [done|].
      apply agree_sym. by eapply agree_apply_writes.
  - exists ws1, l1, (Raise e). split; [done|].
    intros σ' Hσ'. by rewrite bind_run, (Hrun1 σ' Hσ').
Qed.

Lemma regular_lift_bind {A} P (o : outcome A) (k : A → Py unit) :
  (∀ a, o = Return a → regular P (k a)) → regular P (lift o ≫= k).
Proof.
  intros Hk σ. destruct o as [a|e].
  - destruct (Hk a eq_refl σ) as (ws & l & o & Hws & Hrun).
    exists ws, l, o. split; [done|]. intros σ' Hσ'.
    rewrite bind_lift_return. by apply Hrun.
  - exists [], [], (Raise e). split; [constructor|done].
Qed.

Lemma regular_read_contains P key (k : bool → Py unit) :
  (∀ b, regular P (k b)) →
  regular P (read ≫= λ paths, lift (contains key paths) ≫= k).
Proof.
  intros Hk σ. destruct (contains key σ) as [b|e] eqn:Hc.
  - destruct (Hk b σ) as (ws & l & o & Hws & Hrun).
    exists ws, l, o. split; [done|]. intros σ' Hσ'.
    rewrite bind_read, <- (contains_agree _ key _ _ Hσ'), Hc, bind_lift_return.
    by apply Hrun.
  - exists [], [], (Raise e). split; [constructor|]. intros σ' Hσ'.
    by rewrite bind_read, <- (contains_agree _ key _ _ Hσ'), Hc.
Qed.

Lemma regular_for_each {A} P (xs : list A) (body : A → Py unit) :
  (∀ x, x ∈ xs → regular P (body x)) → regular P (for_each xs body).
Proof.
  induction xs as [|x xs IH]; intros Hbody; simpl.
  - apply regular_ret.
  - apply regular_bind.
    + apply Hbody. by left.
    + intros _. apply IH. intros y Hy. apply Hbody. by right.
Qed.

Lemma regular_try_except P (body : Py unit) (handler : exn → Py unit) :
  regular P body → (∀ e, regular P (handler e)) →
  regular P (try_except body handler).
Proof.
  intros Hb Hh σ. destruct (Hb σ) as (ws1 & l1 & o1 & Hws1 & Hrun1).
  destruct o1 as [a|e].
  - exists ws1, l1, (Return a). split; [done|].
    intros σ' Hσ'. unfold try_except. by rewrite (Hrun1 σ' Hσ').
  - destruct (Hh e (apply_writes ws1 σ)) as (ws2 & l2 & o2 & Hws2 & Hrun2).
    exists (ws1 ++ ws2), (l1 ++ l2), o2. split; [by apply Forall_app|].
    intros σ' Hσ'. unfold try_except. rewrite (Hrun1 σ' Hσ'), Hrun2.
    + by rewrite apply_writes_app.
    + eapply agree_trans; [by eapply agree_apply_writes|].
      eapply agree_trans; [done|].
      apply agree_sym. by eapply agree_apply_writes.
Qed.

Lemma regular_method path method struct sc :
  regular (λ w, w = (entry_pos path method sc, struct))
    (_update_method_response path method struct sc).
Proof.
  intros σ.
  destruct (method_run_agree path method struct sc σ σ (agree_refl _ _))
    as (l & o & Hrun & _).
  exists [(entry_pos path method sc, struct)], l, o. split.
  - by repeat constructor.
  - intros σ' Hσ'.
    destruct (method_run_agree path method struct sc σ σ' Hσ')
      as (l' & o' & Hrun1 & Hrun2).
    rewrite Hrun in Hrun1. by simplify_eq.
Qed.

(** ** Documents of the expected shape *)

Lemma all_values_lookup f (d : gmap string value) k v :
  all_values f (VDict d) = true → d !! k = Some v → f v = true.
Proof.
  intros Hall Hk. cbn [all_values] in Hall.
  rewrite forallb_forall in Hall.
  apply (Hall (k, v)), list_elem_of_In. by apply elem_of_map_to_list.
Qed.

Lemma all_values_is_dict f v : all_values f v = true → is_dict v = true.
Proof. by destruct v. Qed.

Lemma is_dict_true v : is_dict v = true → ∃ d, v = VDict d.
Proof. destruct v; try done. by eexists. Qed.

(** On a path map of the expected shape, a call for a known path returns. *)
Lemma method_returns_shaped path method struct sc σ :
  paths_shaped σ = true → is_Some (get_at [path] σ) →
  (_update_method_response path method struct sc σ).2 = Return tt.
Proof.
  intros Hshape [item Hitem].
  destruct (is_dict_true σ (all_values_is_dict _ _ Hshape)) as [ps ->].
  cbn [get_at] in Hitem.
  destruct (ps !! path) as [item'|] eqn:Q1; simplify_eq/=.
  pose proof (all_values_lookup _ _ _ _ Hshape Q1) as Hops.
  destruct (is_dict_true item (all_values_is_dict _ _ Hops)) as [ops ->].
  unfold _update_method_response. rewrite bind_read. cbn [getitem].
  rewrite Q1, bind_lift_return. cbn [contains]. rewrite bind_lift_return.
  destruct (ops !! method) as [op|] eqn:Q2; cycle 1.
  { by rewrite bool_decide_eq_false_2 by (by intros [??]). }
  rewrite bool_decide_eq_true_2 by eauto. cbn [negb getitem].
  rewrite Q2, bind_lift_return.
  pose proof (all_values_lookup _ _ _ _ Hops Q2) as Hop.
  destruct op as [| | | | |o]; try done. cbn [operation_shaped get] in *.
  destruct (o !! "responses") as [r|] eqn:Q3; rewrite bind_lift_return;
    cycle 1.
  { cbn [contains]. rewrite lookup_empty, bind_lift_return.
    by rewrite bool_decide_eq_false_2 by (by intros [??]). }
  destruct (is_dict_true r (all_values_is_dict _ _ Hop)) as [rs ->].
  cbn [contains]. rewrite bind_lift_return.
  destruct (rs !! str sc) as [e|] eqn:Q4; cycle 1.
  { by rewrite bool_decide_eq_false_2 by (by intros [??]). }
  rewrite bool_decide_eq_true_2 by eauto. cbn [negb getitem].
  rewrite Q4, bind_lift_return.
  destruct (is_dict_true e (all_values_lookup _ _ _ _ Hop Q4)) as [eo ->].
  cbn [get]. rewrite Q3. by erewrite method_write_run by eassumption.
Qed.

Lemma shaped_entry_is_dict a b c d σ e :
  paths_shaped σ = true → c = "responses" →
  get_at [a; b; c; d] σ = Some e → is_dict e = true.
Proof.
  intros Hshape -> (qs & qo & qr & ro & -> & Q1 & Q2 & Q3 & Q4)%get_at_entry_inv.
  pose proof (all_values_lookup _ _ _ _ Hshape Q1) as Hops.
  pose proof (all_values_lookup _ _ _ _ Hops Q2) as Hop.
  cbn [operation_shaped] in Hop. rewrite Q3 in Hop.
  by apply (all_values_lookup _ _ _ _ Hop Q4).
Qed.


(** The outcome of a call is the same on all trees that agree to depth 4. *)
Lemma method_outcome_agree path method struct sc σ σ' :
  agree 4 σ σ' →
  (_update_method_response path method struct sc σ').2 =
  (_update_method_response path method struct sc σ).2.
Proof.
  intros H.
  destruct (method_run_agree path method struct sc σ σ' H)
    as (l & o & -> & ->). done.
Qed.

(** The writes of one route, one per method. *)
Lemma for_each_methods_shaped path methods struct sc σ0 σ :
  paths_shaped σ0 = true → is_Some (get_at [path] σ0) → agree 4 σ0 σ →
  ∃ l,
    for_each methods (λ method,
      _update_method_response path (lower method) struct sc) σ =
    (apply_writes
       (map (λ method, (entry_pos path (lower method) sc, struct)) methods) σ,
     l, Return tt).
Proof.
  intros Hshape Hpath. revert σ.
  induction methods as [|method methods IH]; intros σ Hσ.
  - by exists [].
  - cbn [for_each map]. rewrite bind_run.
    pose proof (method_run_state path (lower method) struct sc σ) as Hstate.
    pose proof (method_outcome_agree path (lower method) struct sc σ0 σ Hσ)
      as Hout.
    rewrite (method_returns_shaped _ _ _ _ _ Hshape Hpath) in Hout.
    destruct (_update_method_response path (lower method) struct sc σ)
      as [[σ1 l1] o1]. cbn [fst snd] in *. subst σ1 o1.
    destruct (IH (alter_at (entry_pos path (lower method) sc)
                    (rewrite struct) σ)) as [l2 ->].
    { eapply agree_trans; [exact Hσ|]. apply agree_sym.
      by apply (agree_apply_write (entry_pos path (lower method) sc, struct)). }
    by eexists.
Qed.

(** ** The entry a list of writes leaves at a position *)

Lemma get_at_apply_write_same pos struct σ :
  get_at pos (apply_write (pos, struct) σ) = rewrite struct <$> get_at pos σ.
Proof. apply get_at_alter_at_eq. Qed.

Lemma get_at_apply_write_other (w : write) pos σ :
  length w.1 = length pos → w.1 ≠ pos →
  get_at pos (apply_write w σ) = get_at pos σ.
Proof.
  intros Hlen Hne. apply get_at_alter_at_diverge.
  apply diverge_same_length; [done|]. congruence.
Qed.

(** Writes keep a response object an object, with its description. *)
Lemma get_at_apply_writes_description (P : write → Prop) pos ws σ o :
  length pos = 4%nat →
  Forall (λ w, length w.1 = 4%nat ∧ P w) ws →
  get_at pos σ = Some (VDict o) →
  ∃ o', get_at pos (apply_writes ws σ) = Some (VDict o') ∧
        default (VStr "Successful Response") (o' !! "description") =
        default (VStr "Successful Response") (o !! "description").
Proof.
  intros Hpos Hws. revert σ o.
  induction Hws as [|[pos' struct] ws [Hw _] _ IH]; intros σ o Hσ.
  - by exists o.
  - change (apply_writes ((pos', struct) :: ws) σ)
      with (apply_writes ws (apply_write (pos', struct) σ)).
    destruct (decide (pos' = pos)) as [->|Hne].
    + assert (∃ o1, rewrite struct (VDict o) = VDict o1 ∧
                default (VStr "Successful Response") (o1 !! "description") =
                default (VStr "Successful Response") (o !! "description"))
        as (o1 & Ho1 & Hd1) by (eexists; split; reflexivity).
      destruct (IH (apply_write (pos, struct) σ) o1) as (o' & Ho' & Hd).
      { by rewrite get_at_apply_write_same, Hσ, <- Ho1. }
      exists o'. split; [done|]. by rewrite Hd.
    + apply IH. rewrite get_at_apply_write_other; [done| |done].
      cbn [fst] in *. congruence.
Qed.

(** Once the entry refers to [struct], writes that target it with [struct]
    only keep it so. *)
Lemma get_at_apply_writes_kept pos struct d ws σ :
  length pos = 4%nat →
  Forall (λ w : write, length w.1 = 4%nat ∧ (w.1 = pos → w.2 = struct)) ws →
  get_at pos σ = Some (response_entry d struct) →
  get_at pos (apply_writes ws σ) = Some (response_entry d struct).
Proof.
  intros Hpos Hws. revert σ.
  induction Hws as [|[pos' struct'] ws [Hw Hs] _ IH]; intros σ Hσ; [done|].
  change (apply_writes ((pos', struct') :: ws) σ)
    with (apply_writes ws (apply_write (pos', struct') σ)).
  apply IH. destruct (decide (pos' = pos)) as [->|Hne].
  - rewrite get_at_apply_write_same, Hσ. cbn [fst snd] in Hs.
    by rewrite (Hs eq_refl).
  - rewrite get_at_apply_write_other; [done| |done]. cbn [fst] in *. congruence.
Qed.

(** If the list has a write to the entry, and all its writes to the entry
    are for [struct], the entry ends up referring to [struct]. *)
Lemma get_at_apply_writes_target pos struct ws σ o :
  length pos = 4%nat →
  Forall (λ w : write, length w.1 = 4%nat ∧ (w.1 = pos → w.2 = struct)) ws →
  Exists (λ w : write, w.1 = pos) ws →
  get_at pos σ = Some (VDict o) →
  get_at pos (apply_writes ws σ) =
  Some (response_entry
          (default (VStr "Successful Response") (o !! "description")) struct).
Proof.
  intros Hpos Hws Hex. revert σ.
  induction Hws as [|[pos' struct'] ws [Hw Hs] Hws IH]; intros σ Hσ.
  - by apply Exists_nil in Hex.
  - change (apply_writes ((pos', struct') :: ws) σ)
      with (apply_writes ws (apply_write (pos', struct') σ)).
    destruct (decide (pos' = pos)) as [->|Hne].
    + apply get_at_apply_writes_kept; [done|done|].
      rewrite get_at_apply_write_same, Hσ. cbn [fst snd] in Hs.
      by rewrite (Hs eq_refl).
    + apply Exists_cons in Hex as [Hhere|Hex]; [done|].
      apply IH; [done|].
      rewrite get_at_apply_write_other; [done| |done].
      cbn [fst] in *. congruence.
Qed.

Lemma get_at_ref pos σ d struct :
  get_at pos σ = Some (response_entry d struct) →
  get_at (pos ++ ["content"; "application/json"; "schema"; "$ref"]) σ =
  Some (VStr ("#/components/schemas/" +:+ __name__ struct)).
Proof. intros H. by rewrite get_at_app, H. Qed.

(** ** The loop over the routes *)

Section updater_properties.

Variable extract_struct : type_expr → outcome (option Struct).

Lemma regular_try_body r e :
  endpoint r = Some e →
  regular (route_targets extract_struct r) (try_body extract_struct r e).
Proof.
  intros He. unfold try_body.
  apply regular_lift_bind. intros hints Hhints.
  destruct (hints !! "return") as [return_type|] eqn:Hret;
    [|apply regular_ret].
  apply regular_lift_bind. intros [struct|] Hstruct; [|apply regular_ret].
  apply regular_read_contains. intros []; cbn [negb];
    [|apply regular_logger_debug].
  apply regular_for_each. intros method Hmethod.
  eapply regular_mono; [|apply regular_method].
  intros w ->. exists e, method. repeat split; try done.
  by exists hints, return_type.
Qed.

Lemma regular_except_handler P e err : regular P (except_handler e err).
Proof.
  unfold except_handler. destruct (is_name_or_attribute_error err);
    apply regular_lift_bind; intros name _;
    [apply regular_logger_debug|apply regular_logger_error].
Qed.

Lemma regular_route_step route app :
  route ∈ app →
  regular (targets extract_struct app) (route_step extract_struct route).
Proof.
  intros Hin. destruct route as [r|]; simpl; [|apply regular_ret].
  destruct (endpoint r) as [e|] eqn:He; [|apply regular_ret].
  apply regular_try_except; [|intros; apply regular_except_handler].
  eapply regular_mono; [|by apply regular_try_body].
  intros w Hw. by exists r.
Qed.

Lemma regular_routes app :
  regular (targets extract_struct app)
    (for_each app (route_step extract_struct)).
Proof. apply regular_for_each. intros route. apply regular_route_step. Qed.

(** The document after the call is the document with the writes of the call
    applied to the object under ["paths"]. *)
Lemma update_route_responses_writes (σ : value) app :
  ∃ ws l o,
    Forall (λ w, length w.1 = 4%nat ∧ targets extract_struct app w) ws ∧
    ∀ (doc : gmap string value) paths,
      doc !! "paths" = Some paths →
      agree 4 σ paths →
      update_route_responses extract_struct doc app =
        (<["paths" := apply_writes ws paths]> doc, l, o).
Proof.
  destruct (regular_routes app σ) as (ws & l & o & Hws & Hrun).
  exists ws, l, o. split; [done|]. intros doc paths Hdoc Hagree.
  unfold update_route_responses. rewrite Hdoc. simpl.
  by rewrite (Hrun _ Hagree).
Qed.

Lemma update_route_responses_no_paths (openapi_schema : gmap string value) app :
  openapi_schema !! "paths" = None →
  (update_route_responses extract_struct openapi_schema app).1.1 =
    openapi_schema.
Proof.
  intros Hnone. unfold update_route_responses. rewrite Hnone. simpl.
  by destruct (for_each app (route_step extract_struct) (VDict ∅))
    as [[??]?].
Qed.

(** C2. [update_route_responses] is idempotent: applying it a second time to
    the document left by a first application, with the same route table,
    leaves that document as it is. *)
Theorem update_route_responses_idempotent (openapi_schema : gmap string value)
    (app : list BaseRoute) :
  let once := (update_route_responses extract_struct openapi_schema app).1.1 in
  (update_route_responses extract_struct once app).1.1 = once.
Proof.
  simpl. destruct (openapi_schema !! "paths") as [paths|] eqn:Hpaths; cycle 1.
  { by rewrite !update_route_responses_no_paths
      by (by rewrite ?update_route_responses_no_paths). }
  destruct (update_route_responses_writes paths app)
    as (ws & l & o & Hws & Hrun).
  rewrite (Hrun openapi_schema paths Hpaths (agree_refl _ _)). simpl.
  rewrite (Hrun _ (apply_writes ws paths)).
  - simpl. rewrite insert_insert_eq.
    by rewrite (apply_writes_idemp (targets extract_struct app)).
  - apply lookup_insert_eq.
  - apply agree_sym. by eapply agree_apply_writes.
Qed.

Lemma update_route_responses_doc (openapi_schema : gmap string value) app :
  ∃ ws,
    Forall (λ w, length w.1 = 4%nat ∧ targets extract_struct app w) ws ∧
    (update_route_responses extract_struct openapi_schema app).1.1 =
      alter (apply_writes ws) "paths" openapi_schema.
Proof.
  destruct (openapi_schema !! "paths") as [paths|] eqn:Hpaths.
  - destruct (update_route_responses_writes paths app)
      as (ws & l & o & Hws & Hrun).
    exists ws. split; [done|].
    rewrite (Hrun openapi_schema paths Hpaths (agree_refl _ _)).
    symmetry. by apply alter_alt_Some.
  - exists []. split; [constructor|].
    rewrite update_route_responses_no_paths by done.
    symmetry. apply alter_id. intros x. by rewrite Hpaths.
Qed.

Lemma route_step_writes route σ :
  ∃ ws l o,
    Forall (λ w, length w.1 = 4%nat ∧ targets extract_struct [route] w) ws ∧
    route_step extract_struct route σ = (apply_writes ws σ, l, o).
Proof.
  destruct (regular_route_step route [route] (list_elem_of_here _ _) σ)
    as (ws & l & o & Hws & Hrun).
  exists ws, l, o. split; [done|]. apply Hrun, agree_refl.
Qed.

Lemma apply_writes_absent_path p ws σ :
  Forall (λ w : write, ∃ rest, w.1 = p :: rest) ws →
  get_at [p] σ = None → apply_writes ws σ = σ.
Proof.
  intros Hws Hp. induction Hws as [|w ws [rest Hw] _ IH]; [done|].
  change (apply_writes (w :: ws) σ) with (apply_writes ws (apply_write w σ)).
  assert (apply_write w σ = σ) as ->; [|done].
  unfold apply_write. rewrite Hw. destruct σ as [| | | | |d]; try done.
  cbn [get_at] in Hp. apply alter_at_lookup_None.
  by destruct (d !! p).
Qed.

(** C3. [update_route_responses] creates no key: every top-level key, path,
    method under a path and status under a method's responses that the
    document has after the call, it had before.  A route whose path is not
    in the path map leaves the path map as it is, and so does a call of
    [_update_method_response] whose method or stringified status code is
    not documented. *)
Theorem update_route_responses_no_new_keys :
  (∀ (openapi_schema : gmap string value) (app : list BaseRoute),
     let after :=
       (update_route_responses extract_struct openapi_schema app).1.1 in
     (∀ k, is_Some (after !! k) → is_Some (openapi_schema !! k)) ∧
     (∀ p, is_Some (get_at ["paths"; p] (VDict after)) →
           is_Some (get_at ["paths"; p] (VDict openapi_schema))) ∧
     (∀ p m, is_Some (get_at ["paths"; p; m] (VDict after)) →
             is_Some (get_at ["paths"; p; m] (VDict openapi_schema))) ∧
     (∀ p m s,
        is_Some (get_at ["paths"; p; m; "responses"; s] (VDict after)) →
        is_Some (get_at ["paths"; p; m; "responses"; s]
                   (VDict openapi_schema)))) ∧
  (∀ (r : APIRoute) (paths : value),
     get_at [path r] paths = None →
     (route_step extract_struct (IsAPIRoute r) paths).1.1 = paths) ∧
  (∀ (path method : string) (struct : Struct) (sc : Z) (paths : value),
     get_at [path; method; "responses"; str sc] paths = None →
     (_update_method_response path method struct sc paths).1.1 = paths).
Proof.
  split; [|split].
  - intros doc app. cbv zeta.
    destruct (update_route_responses_doc doc app) as (ws & Hws & ->).
    assert (∀ ks, (length ks ≤ 4)%nat →
      is_Some (get_at ("paths" :: ks)
                 (VDict (alter (apply_writes ws) "paths" doc))) →
      is_Some (get_at ("paths" :: ks) (VDict doc))) as Hkeys.
    { intros ks Hks. cbn [get_at]. rewrite lookup_alter_eq.
      destruct (doc !! "paths") as [paths|]; simpl; [|done].
      by rewrite (get_at_apply_writes_is_Some _ ks ws paths Hks Hws). }
    split; [|split; [|split]].
    + intros k. by rewrite lookup_alter_is_Some.
    + intros p. apply (Hkeys [p]). simpl. lia.
    + intros p m. apply (Hkeys [p; m]). simpl. lia.
    + intros p m s. apply (Hkeys [p; m; "responses"; s]). simpl. lia.
  - intros r paths Hp.
    destruct (route_step_writes (IsAPIRoute r) paths)
      as (ws & l & o & Hws & ->). cbn [fst].
    apply (apply_writes_absent_path (path r)); [|done].
    eapply Forall_impl; [exact Hws|].
    intros w [_ (r' & Hr' & e & method & _ & _ & _ & Hw)].
    apply list_elem_of_singleton in Hr' as [= <-]. rewrite Hw. by eexists.
  - intros path method struct sc paths Hpos.
    rewrite method_run_state. apply alter_at_id. intros x.
    unfold entry_pos. by rewrite Hpos.
Qed.

(** C10. A call of [_update_method_response] changes, within the operation
    object of its path and method, at most the entry of ["responses"]
    under its stringified status code: every other key of the operation
    object and every other status entry is as before.  Over a whole call of
    [update_route_responses], every key of an operation object other than
    ["responses"] is as before, and so is every status entry that no route
    of the table targets. *)
Theorem update_route_responses_frame :
  (∀ (path method : string) (struct : Struct) (sc : Z) (paths : value),
     let after :=
       (_update_method_response path method struct sc paths).1.1 in
     (∀ k, k ≠ "responses" →
           get_at [path; method; k] after = get_at [path; method; k] paths) ∧
     (∀ s, s ≠ str sc →
           get_at [path; method; "responses"; s] after =
           get_at [path; method; "responses"; s] paths)) ∧
  (∀ (openapi_schema : gmap string value) (app : list BaseRoute),
     let after :=
       (update_route_responses extract_struct openapi_schema app).1.1 in
     (∀ p m k, k ≠ "responses" →
        get_at ["paths"; p; m; k] (VDict after) =
        get_at ["paths"; p; m; k] (VDict openapi_schema)) ∧
     (∀ p m s,
        (∀ w, targets extract_struct app w → w.1 ≠ [p; m; "responses"; s]) →
        get_at ["paths"; p; m; "responses"; s] (VDict after) =
        get_at ["paths"; p; m; "responses"; s] (VDict openapi_schema))).
Proof.
  split.
  - intros path method struct sc paths. cbv zeta.
    rewrite method_run_state. unfold entry_pos. split.
    + intros k Hk. apply get_at_alter_at_diverge. simpl. naive_solver.
    + intros s Hs. apply get_at_alter_at_diverge. simpl. naive_solver.
  - intros doc app. cbv zeta.
    destruct (update_route_responses_doc doc app) as (ws & Hws & ->).
    split.
    + intros p m k Hk. apply get_at_paths_alter. intros v.
      apply get_at_apply_writes_diverge.
      eapply Forall_impl; [exact Hws|].
      intros w [_ (r & _ & e & method & _ & _ & _ & Hw)]. rewrite Hw.
      unfold entry_pos. simpl.
      destruct (decide (p = path r)) as [->|]; [|by left]. right.
      split; [done|].
      destruct (decide (m = lower method)) as [->|]; [|by left]. right.
      split; [done|]. by left.
    + intros p m s Hfree. apply get_at_paths_alter. intros v.
      apply get_at_apply_writes_diverge.
      eapply Forall_impl; [exact Hws|].
      intros w [Hlen Hw]. apply diverge_same_length; [by rewrite Hlen|].
      intros Heq. by apply (Hfree w Hw).
Qed.

Lemma for_each_app {A} (xs ys : list A) (body : A → Py unit) σ :
  for_each (xs ++ ys) body σ =
  (for_each xs body ≫= λ _, for_each ys body) σ.
Proof.
  revert σ. induction xs as [|x xs IH]; intros σ.
  - rewrite bind_run. simpl. by destruct (for_each ys body σ) as [[??]?].
  - cbn [app for_each]. rewrite !bind_run.
    destruct (body x σ) as [[σ1 l1] [[]|e]]; [|done].
    rewrite IH, !bind_run.
    destruct (for_each xs body σ1) as [[σ2 l2] [[]|e]]; [|done].
    destruct (for_each ys body σ2) as [[σ3 l3] o].
    by rewrite app_assoc.
Qed.

Lemma for_each_skip {A} (xs ys : list A) (x : A) (body : A → Py unit) σ :
  (∀ τ, body x τ = (τ, [], Return tt)) →
  for_each (xs ++ x :: ys) body σ = for_each (xs ++ ys) body σ.
Proof.
  intros Hx. rewrite !for_each_app, !bind_run.
  destruct (for_each xs body σ) as [[σ1 l1] [[]|e]]; [|done].
  cbn [for_each]. rewrite bind_run, Hx.
  by destruct (for_each ys body σ1) as [[??]?].
Qed.

(** C8. A route whose handler has no return annotation, or one from which
    [extract_struct] extracts no record type, is a no-op: its iteration
    changes nothing, logs nothing and returns, so the whole call gives the
    same document, log and result as on the table without that route. *)
Theorem route_without_record_type_skipped (r : APIRoute) (e : Endpoint)
    (hints : gmap string type_expr) :
  endpoint r = Some e →
  get_type_hints e = Return hints →
  (hints !! "return" = None ∨
   ∃ t, hints !! "return" = Some t ∧ extract_struct t = Return None) →
  (∀ paths,
     route_step extract_struct (IsAPIRoute r) paths = (paths, [], Return tt)) ∧
  (∀ (openapi_schema : gmap string value) (before after : list BaseRoute),
     update_route_responses extract_struct openapi_schema
       (before ++ IsAPIRoute r :: after) =
     update_route_responses extract_struct openapi_schema (before ++ after)).
Proof.
  intros He Hhints Hret.
  assert (∀ paths, route_step extract_struct (IsAPIRoute r) paths =
                   (paths, [], Return tt)) as Hskip.
  { intros paths. cbn [route_step]. rewrite He.
    unfold try_except, try_body. rewrite Hhints, bind_lift_return.
    destruct Hret as [->|(t & -> & Ht)]; [done|].
    by rewrite Ht, bind_lift_return. }
  split; [done|]. intros doc before after. unfold update_route_responses.
  by rewrite for_each_skip.
Qed.

(** ** Handlers with a name *)

Lemma route_step_returns route σ :
  named [route] → (route_step extract_struct route σ).2 = Return tt.
Proof.
  intros Hnamed. destruct route as [r|]; [|done]. cbn [route_step].
  destruct (endpoint r) as [e|] eqn:He; [|done].
  destruct (Hnamed r e (list_elem_of_here _ _) He) as [name Hname].
  unfold try_except.
  destruct (try_body extract_struct r e σ) as [[σ1 l1] [[]|err]]; [done|].
  unfold except_handler, getattr_name. rewrite Hname.
  by destruct (is_name_or_attribute_error err).
Qed.

Lemma named_cons route app : named (route :: app) → named [route] ∧ named app.
Proof.
  intros H. split; intros r e Hr; apply H.
  - apply list_elem_of_singleton in Hr as ->. by left.
  - by right.
Qed.

Lemma named_app app1 app2 : named (app1 ++ app2) → named app1 ∧ named app2.
Proof.
  intros H. split; intros r e Hr; apply H; apply elem_of_app; auto.
Qed.

Lemma for_each_route_step_returns app σ :
  named app →
  (for_each app (route_step extract_struct) σ).2 = Return tt.
Proof.
  revert σ. induction app as [|route app IH]; intros σ Hnamed; [done|].
  apply named_cons in Hnamed as [Hroute Happ].
  cbn [for_each]. rewrite bind_run.
  pose proof (route_step_returns route σ Hroute) as Hstep.
  destruct (route_step extract_struct route σ) as [[σ1 l1] o1].
  cbn [snd] in Hstep. subst o1. specialize (IH σ1 Happ).
  by destruct (for_each app (route_step extract_struct) σ1) as [[??]?].
Qed.

(** X7. When every handler of the route table has a [__name__],
    [update_route_responses] returns normally, whatever the document. *)
Lemma update_route_responses_returns (openapi_schema : gmap string value) app :
  named app →
  (update_route_responses extract_struct openapi_schema app).2 = Return tt.
Proof.
  intros Hnamed. unfold update_route_responses.
  pose proof (for_each_route_step_returns app
                (default (VDict ∅) (openapi_schema !! "paths")) Hnamed) as H.
  by destruct (for_each app _ _) as [[??]?].
Qed.

(** ** A route whose handler resolves to a record type *)

Lemma route_step_resolved_shaped r e struct σ0 σ :
  endpoint r = Some e → resolves extract_struct e struct →
  paths_shaped σ0 = true → is_Some (get_at [path r] σ0) → agree 4 σ0 σ →
  ∃ l,
    route_step extract_struct (IsAPIRoute r) σ =
    (apply_writes
       (map (λ method,
               (entry_pos (path r) (lower method) (status_code_or_200 r),
                struct)) (methods r)) σ,
     l, Return tt).
Proof.
  intros He (hints & t & Hhints & Ht & Hx) Hshape Hpath Hσ.
  cbn [route_step]. rewrite He. unfold try_except, try_body.
  rewrite Hhints, bind_lift_return, Ht, Hx, bind_lift_return, bind_read.
  rewrite <- (contains_agree _ (path r) _ _ Hσ).
  destruct (is_dict_true σ0 (all_values_is_dict _ _ Hshape)) as [ps ->].
  cbn [contains get_at] in *.
  rewrite bool_decide_eq_true_2, bind_lift_return
    by (by destruct (ps !! path r)).
  cbn [negb].
  destruct (for_each_methods_shaped (path r) (methods r) struct
              (status_code_or_200 r) (VDict ps) σ Hshape) as [l ->]; [|done|].
  - cbn [get_at]. by destruct (ps !! path r).
  - by exists l.
Qed.

(** C7, amended. For a route whose handler resolves to a record type, the
    status code that selects the response entry is the declared status code
    when it is set and not 0, and 200 when it is unset or 0.  Only entries
    under the string form of that status code can change; and on a path map
    of the expected shape, every entry of the route's path and methods under
    that key is made to refer to the record type. *)
Theorem status_code_selects_entry (r : APIRoute) (e : Endpoint)
    (struct : Struct) (paths : value) :
  endpoint r = Some e →
  resolves extract_struct e struct →
  let sc := match status_code r with
            | Some c => if c =? 0 then 200 else c
            | None => 200
            end in
  let after := (route_step extract_struct (IsAPIRoute r) paths).1.1 in
  (∀ p m s, s ≠ str sc →
     get_at [p; m; "responses"; s] after =
     get_at [p; m; "responses"; s] paths) ∧
  (paths_shaped paths = true →
   ∀ method, method ∈ methods r →
     is_Some (get_at [path r; lower method; "responses"; str sc] paths) →
     get_at [path r; lower method; "responses"; str sc;
             "content"; "application/json"; "schema"; "$ref"] after =
     Some (VStr ("#/components/schemas/" +:+ __name__ struct))).
Proof.
  intros He Hres. cbv zeta.
  change (match status_code r with
          | Some c => if c =? 0 then 200 else c
          | None => 200
          end) with (status_code_or_200 r).
  split.
  - intros p m s Hs.
    destruct (route_step_writes (IsAPIRoute r) paths)
      as (ws & l & o & Hws & ->). cbn [fst].
    apply get_at_apply_writes_diverge.
    eapply Forall_impl; [exact Hws|].
    intros w [_ (r' & Hr' & e' & method & _ & _ & _ & Hw)].
    apply list_elem_of_singleton in Hr' as [= ->]. rewrite Hw.
    unfold entry_pos. simpl.
    destruct (decide (p = path r)) as [->|]; [|by left]. right.
    split; [done|].
    destruct (decide (m = lower method)) as [->|]; [|by left]. right.
    split; [done|]. right. split; [done|]. by left.
  - intros Hshape method Hmethod [entry Hentry].
    assert (is_Some (get_at [path r] paths)) as Hpath.
    { apply get_at_entry_inv in Hentry
        as (qs & qo & qr & ro & -> & Q1 & _). cbn [get_at]. by rewrite Q1. }
    destruct (route_step_resolved_shaped r e struct paths paths He Hres
                Hshape Hpath (agree_refl _ _)) as [l ->]. cbn [fst].
    destruct (is_dict_true entry
                (shaped_entry_is_dict _ _ _ _ _ _ Hshape eq_refl Hentry))
      as [o ->].
    apply (get_at_ref
             [path r; lower method; "responses"; str (status_code_or_200 r)]
             _ (default (VStr "Successful Response") (o !! "description"))).
    apply get_at_apply_writes_target; [done| | |done].
    + apply Forall_forall. intros w (m' & -> & _)%list_elem_of_fmap.
      by split.
    + apply Exists_exists. eexists. split.
      * apply list_elem_of_fmap. by exists method.
      * done.
Qed.

(** C1, amended. Take a document whose path map has the expected shape, a
    route table whose handlers all have a [__name__], and in it a route
    whose handler resolves to the record type [struct].  For every method
    of the route whose entry, under the route's path and status code, is in
    the document, and which no later route of the table targets with
    another record type, the ["$ref"] of the entry after the call is
    ["#/components/schemas/"] followed by the name of [struct]. *)
Theorem response_refers_to_record_type (openapi_schema : gmap string value)
    (paths : value) (before after : list BaseRoute) (r : APIRoute)
    (e : Endpoint) (struct : Struct) (method : string) :
  openapi_schema !! "paths" = Some paths →
  paths_shaped paths = true →
  named (before ++ IsAPIRoute r :: after) →
  endpoint r = Some e →
  resolves extract_struct e struct →
  method ∈ methods r →
  is_Some (get_at [path r; lower method; "responses";
                   str (status_code_or_200 r)] paths) →
  (∀ w, targets extract_struct after w →
        w.1 = [path r; lower method; "responses";
               str (status_code_or_200 r)] →
        w.2 = struct) →
  get_at ["paths"; path r; lower method; "responses";
          str (status_code_or_200 r);
          "content"; "application/json"; "schema"; "$ref"]
    (VDict (update_route_responses extract_struct openapi_schema
              (before ++ IsAPIRoute r :: after)).1.1) =
  Some (VStr ("#/components/schemas/" +:+ __name__ struct)).
Proof.
  intros Hpaths Hshape Hnamed He Hres Hmethod [entry Hentry] Hlast.
  set (pos := [path r; lower method; "responses";
               str (status_code_or_200 r)]) in *.
  destruct (is_dict_true entry
              (shaped_entry_is_dict _ _ _ _ _ _ Hshape eq_refl Hentry))
    as [o ->].
  assert (is_Some (get_at [path r] paths)) as Hpath.
  { apply get_at_entry_inv in Hentry
      as (qs & qo & qr & ro & -> & Q1 & _). cbn [get_at]. by rewrite Q1. }
  apply named_app in Hnamed as [Hbefore _].
  (* the routes before *)
  destruct (regular_routes before paths) as (ws1 & l1 & o1 & Hws1 & Hrun1).
  specialize (Hrun1 paths (agree_refl _ _)).
  pose proof (for_each_route_step_returns before paths Hbefore) as Hret1.
  rewrite Hrun1 in Hret1. cbn [snd] in Hret1. subst o1.
  destruct (get_at_apply_writes_description _ pos ws1 paths o eq_refl Hws1
              Hentry) as (o1 & Ho1 & Hd1).
  (* the route itself *)
  destruct (route_step_resolved_shaped r e struct paths
              (apply_writes ws1 paths) He Hres Hshape Hpath) as [lr Hrunr].
  { apply agree_sym. by eapply agree_apply_writes. }
  (* the routes after *)
  set (wsr := map (λ method0,
                     (entry_pos (path r) (lower method0)
                        (status_code_or_200 r), struct)) (methods r)) in *.
  destruct (regular_routes after (apply_writes wsr (apply_writes ws1 paths)))
    as (ws2 & l2 & o2 & Hws2 & Hrun2).
  specialize (Hrun2 _ (agree_refl _ _)).
  (* the whole call *)
  unfold update_route_responses. rewrite Hpaths. cbn [default from_option id].
  rewrite for_each_app, bind_run, Hrun1. cbn [for_each].
  rewrite bind_run, Hrunr, Hrun2. cbn [fst].
  change (get_at (["paths"] ++ pos ++
                  ["content"; "application/json"; "schema"; "$ref"])
            (VDict (<["paths" := apply_writes ws2
                        (apply_writes wsr (apply_writes ws1 paths))]>
                      openapi_schema)) = 
          Some (VStr ("#/components/schemas/" +:+ __name__ struct))).
  rewrite get_at_app. cbn [get_at]. rewrite lookup_insert_eq. cbn.
  rewrite <- apply_writes_app.
  apply (get_at_ref pos _
           (default (VStr "Successful Response") (o1 !! "description"))).
  apply get_at_apply_writes_target; [done| | |done].
  - apply Forall_app. split.
    + apply Forall_forall. intros w (m' & -> & _)%list_elem_of_fmap.
      by split.
    + eapply Forall_impl; [exact Hws2|]. intros w [Hlen Hw]. split; [done|].
      by apply Hlast.
  - apply Exists_app. left. apply Exists_exists. eexists. split.
    + apply list_elem_of_fmap. by exists method.
    + done.
Qed.

(** ** Failures of a route whose handler has a name *)

(** X8. For a handler that has a [__name__], a failure in the [try] block is
    caught: the iteration keeps the state and the records of the block, adds
    one record, at debug level for a [NameError] or an [AttributeError] and
    at error level otherwise, and returns. *)
Lemma route_step_failure_logged r e name σ σ1 l1 err :
  endpoint r = Some e → endpoint_name e = Some name →
  try_body extract_struct r e σ = (σ1, l1, Raise err) →
  ∃ record,
    route_step extract_struct (IsAPIRoute r) σ =
      (σ1, l1 ++ [record], Return tt) ∧
    levelname record =
      (if is_name_or_attribute_error err then DEBUG else ERROR).
Proof.
  intros He Hname Hbody. cbn [route_step]. rewrite He.
  unfold try_except. rewrite Hbody.
  unfold except_handler, getattr_name. rewrite Hname.
  destruct (is_name_or_attribute_error err); by eexists.
Qed.

(** X9. A route whose handler has a [__name__] and annotations that do not
    resolve ([get_type_hints] raises [NameError]) is skipped: the state is
    unchanged, the only record is the debug record of the first [except]
    clause, and the iteration returns. *)
Lemma unresolved_annotations_skipped r e name σ :
  endpoint r = Some e → endpoint_name e = Some name →
  get_type_hints e = Raise NameError →
  route_step extract_struct (IsAPIRoute r) σ =
  (σ, [ {| levelname := DEBUG;
           msg := "Cannot resolve type hints for %s: %s (skipping route)";
           args := [ArgStr name; ArgExc NameError];
           exc_info := false |} ], Return tt).
Proof.
  intros He Hname Hhints. cbn [route_step]. rewrite He.
  unfold try_except, try_body. rewrite Hhints, bind_lift_raise.
  unfold except_handler, getattr_name. by rewrite Hname.
Qed.

End updater_properties.

(** ** The scenarios of the specification and of the handlers without a name *)

Lemma route_without_record_type_skipped_witness :
  (∀ paths,
     route_step extract (IsAPIRoute Examples.plain_route) paths =
     (paths, [], Return tt)) ∧
  (∀ (openapi_schema : gmap string value) (before after : list BaseRoute),
     update_route_responses extract openapi_schema
       (before ++ IsAPIRoute Examples.plain_route :: after) =
     update_route_responses extract openapi_schema (before ++ after)).
Proof.
  apply (route_without_record_type_skipped extract Examples.plain_route
           (Examples.handler (TPlain "str")) {[ "return" := TPlain "str" ]}).
  - reflexivity.
  - reflexivity.
  - right. exists (TPlain "str"). split; reflexivity.
Defined.

(** C4. A route whose handler is a [functools.partial] object makes
    [update_route_responses] raise [AttributeError]: [get_type_hints] fails
    with [TypeError], the [except Exception] clause evaluates
    [route.endpoint.__name__], and that exception leaves the call.  Nothing
    is logged and the route after it, which would have been updated, is
    not attempted. *)
Theorem update_route_responses_raises_on_partial :
  update_route_responses extract Examples.items_doc
    [IsAPIRoute Examples.partial_route; IsAPIRoute Examples.items_route] =
  (Examples.items_doc, [], Raise AttributeError).
Proof. vm_compute. reflexivity. Qed.

(** C6. A route whose handler's annotations do not resolve ([NameError]) and
    whose handler has no [__name__] makes [update_route_responses] raise
    [AttributeError] out of the [except (NameError, AttributeError)] clause,
    without the debug record; the document is left as it was. *)
Theorem update_route_responses_raises_on_forward_ref :
  update_route_responses extract Examples.items_doc
    [IsAPIRoute Examples.forward_ref_route] =
  (Examples.items_doc, [], Raise AttributeError).
Proof. vm_compute. reflexivity. Qed.

(** C9. On a document without ["paths"], a route whose handler is a
    [functools.partial] object still makes [update_route_responses] raise
    [AttributeError]; the document is left as it was. *)
Theorem update_route_responses_raises_without_paths :
  update_route_responses extract {[ "openapi" := VStr "3.1.0" ]}
    [IsAPIRoute Examples.partial_route] =
  ({[ "openapi" := VStr "3.1.0" ]}, [], Raise AttributeError).
Proof. vm_compute. reflexivity. Qed.

(** The route of the specification's scenario: status code unset, so the
    entry under ["200"] is the one rewritten. *)
Lemma status_code_selects_entry_witness :
  let after :=
    (route_step extract (IsAPIRoute Examples.items_route)
       Examples.items_paths).1.1 in
  (∀ p m s, s ≠ str 200 →
     get_at [p; m; "responses"; s] after =
     get_at [p; m; "responses"; s] Examples.items_paths) ∧
  get_at ["/items"; "get"; "responses"; "200";
          "content"; "application/json"; "schema"; "$ref"] after =
  Some (VStr "#/components/schemas/ItemOut").
Proof.
  destruct (status_code_selects_entry extract Examples.items_route
              (Examples.handler (TStruct Examples.ItemOut)) Examples.ItemOut
              Examples.items_paths eq_refl) as [Hframe Hhit].
  - exists {[ "return" := TStruct Examples.ItemOut ]},
      (TStruct Examples.ItemOut). split; [reflexivity|]. split; reflexivity.
  - split; [exact Hframe|].
    apply (Hhit eq_refl "GET"); [left|]. vm_compute. eauto.
Defined.

(** C7, as stated, fails for a route declared with status code 0: the entry
    under ["0"] is left as it was and the entry under ["200"] is the one
    rewritten. *)
Lemma status_code_zero_selects_200 :
  let after :=
    (update_route_responses extract Examples.zero_doc
       [IsAPIRoute Examples.zero_route]).1.1 in
  status_code Examples.zero_route = Some 0 ∧
  str 0 = "0" ∧
  get_at ["paths"; "/items"; "get"; "responses"; "0"] (VDict after) =
    Some (VDict {[ "description" := VStr "Zero" ]}) ∧
  get_at ["paths"; "/items"; "get"; "responses"; "200";
          "content"; "application/json"; "schema"; "$ref"] (VDict after) =
    Some (VStr "#/components/schemas/ItemOut").
Proof. vm_compute. repeat split. Qed.

(** The scenario of the specification, after a route that returns a plain
    string. *)
Lemma response_refers_to_record_type_witness :
  get_at ["paths"; "/items"; "get"; "responses"; "200";
          "content"; "application/json"; "schema"; "$ref"]
    (VDict (update_route_responses extract Examples.items_doc
              ([IsAPIRoute Examples.plain_route] ++
               IsAPIRoute Examples.items_route :: [])).1.1) =
  Some (VStr "#/components/schemas/ItemOut").
Proof.
  apply (response_refers_to_record_type extract Examples.items_doc
           Examples.items_paths [IsAPIRoute Examples.plain_route] []
           Examples.items_route (Examples.handler (TStruct Examples.ItemOut))
           Examples.ItemOut "GET").
  - reflexivity.
  - vm_compute. reflexivity.
  - intros r e Hr He.
    apply elem_of_cons in Hr as [[= ->]|Hr];
      [|apply list_elem_of_singleton in Hr as [= ->]];
      injection He as <-; by eexists.
  - reflexivity.
  - exists {[ "return" := TStruct Examples.ItemOut ]},
      (TStruct Examples.ItemOut). split; [reflexivity|]. split; reflexivity.
  - left.
  - vm_compute. eauto.
  - intros w (r & Hr & _). by apply elem_of_nil in Hr.
Defined.

(** C1, as stated, fails when two routes share a path and a method: the
    first route resolves to [ItemOut] and its [GET]/200 entry is in the
    document, yet after the call the entry refers to the record type of
    the second route. *)
Lemma later_route_wins :
  let after :=
    (update_route_responses extract Examples.items_doc
       [IsAPIRoute Examples.items_route; IsAPIRoute Examples.other_route]).1.1 in
  resolves extract (Examples.handler (TStruct Examples.ItemOut))
    Examples.ItemOut ∧
  "GET" ∈ methods Examples.items_route ∧
  is_Some (get_at ["paths"; "/items"; "get"; "responses"; "200"]
             (VDict Examples.items_doc)) ∧
  get_at ["paths"; "/items"; "get"; "responses"; "200";
          "content"; "application/json"; "schema"; "$ref"] (VDict after) =
    Some (VStr "#/components/schemas/OtherOut") ∧
  get_at ["paths"; "/items"; "get"; "responses"; "200";
          "content"; "application/json"; "schema"; "$ref"] (VDict after) ≠
    Some (VStr ("#/components/schemas/" +:+ __name__ Examples.ItemOut)).
Proof.
  cbv zeta. split; [|split; [|split; [|split]]].
  - exists {[ "return" := TStruct Examples.ItemOut ]},
      (TStruct Examples.ItemOut). split; [reflexivity|]. split; reflexivity.
  - left.
  - vm_compute. eauto.
  - vm_compute. reflexivity.
  - vm_compute. discriminate.
Qed.

(** * Further properties of the updater *)

(** ** What one call of [_update_method_response] does when it writes
    nothing *)

(** X3. When the path item is a mapping that does not have the method,
    [_update_method_response] leaves [paths] as it is, logs one debug record
    that names the method in upper case and the path, and returns. *)
Theorem undocumented_method_logged (path method : string) (struct : Struct)
    (sc : Z) (paths : value) (ops : gmap string value) :
  get_at [path] paths = Some (VDict ops) →
  ops !! method = None →
  _update_method_response path method struct sc paths =
  (paths,
   [ {| levelname := DEBUG; msg := "Method %s not in path %s";
        args := [ArgStr (upper method); ArgStr path];
        exc_info := false |} ], Return tt).
Proof.
  intros Hitem Hmethod. destruct paths as [| | | | |ps]; try done.
  cbn [get_at] in Hitem.
  destruct (ps !! path) as [item|] eqn:Q1; simplify_eq/=.
  unfold _update_method_response. rewrite bind_read. cbn [getitem].
  rewrite Q1, bind_lift_return. cbn [contains]. rewrite bind_lift_return.
  by rewrite bool_decide_eq_false_2 by (rewrite Hmethod; by intros [??]).
Qed.

Lemma undocumented_method_logged_witness :
  _update_method_response "/items" "put" Examples.ItemOut 200
    Examples.items_paths =
  (Examples.items_paths,
   [ {| levelname := DEBUG; msg := "Method %s not in path %s";
        args := [ArgStr (upper "put"); ArgStr "/items"];
        exc_info := false |} ], Return tt).
Proof.
  apply (undocumented_method_logged "/items" "put" Examples.ItemOut 200
           Examples.items_paths
           {[ "get" := VDict {[ "responses" :=
                VDict {[ "200" := VDict {[ "description" := VStr "OK" ]} ]} ]} ]}).
  - reflexivity.
  - reflexivity.
Defined.

(** X4. When the operation object has no ["responses"] key, or its
    ["responses"] mapping lacks the stringified status code,
    [_update_method_response] leaves [paths] as it is (no ["responses"] key
    and no status key is added), logs one debug record with the status
    string, the method in upper case and the path, and returns. *)
Theorem undocumented_status_logged (path method : string) (struct : Struct)
    (sc : Z) (paths : value) (o : gmap string value) :
  get_at [path; method] paths = Some (VDict o) →
  (o !! "responses" = None ∨
   ∃ rs, o !! "responses" = Some (VDict rs) ∧ rs !! str sc = None) →
  _update_method_response path method struct sc paths =
  (paths,
   [ {| levelname := DEBUG;
        msg := "Status code %s not in responses for %s %s";
        args := [ArgStr (str sc); ArgStr (upper method); ArgStr path];
        exc_info := false |} ], Return tt).
Proof.
  intros Hop Hresp. destruct paths as [| | | | |ps]; try done.
  cbn [get_at] in Hop.
  destruct (ps !! path) as [[| | | | |ops]|] eqn:Q1; try done.
  cbn [mbind option_bind] in Hop.
  destruct (ops !! method) as [op|] eqn:Q2; simplify_eq/=.
  unfold _update_method_response. rewrite bind_read. cbn [getitem].
  rewrite Q1, bind_lift_return. cbn [contains]. rewrite bind_lift_return.
  rewrite bool_decide_eq_true_2 by eauto. cbn [negb getitem].
  rewrite Q2, bind_lift_return. cbn [get].
  destruct Hresp as [->|(rs & -> & Hs)]; rewrite bind_lift_return;
    cbn [contains]; rewrite bind_lift_return.
  - by rewrite bool_decide_eq_false_2 by (rewrite lookup_empty; by intros [??]).
  - by rewrite bool_decide_eq_false_2 by (rewrite Hs; by intros [??]).
Qed.

Lemma undocumented_status_logged_witness :
  _update_method_response "/items" "get" Examples.ItemOut 201
    Examples.items_paths =
  (Examples.items_paths,
   [ {| levelname := DEBUG;
        msg := "Status code %s not in responses for %s %s";
        args := [ArgStr (str 201); ArgStr (upper "get"); ArgStr "/items"];
        exc_info := false |} ], Return tt).
Proof.
  apply (undocumented_status_logged "/items" "get" Examples.ItemOut 201
           Examples.items_paths
           {[ "responses" :=
                VDict {[ "200" := VDict {[ "description" := VStr "OK" ]} ]} ]}).
  - reflexivity.
  - right. exists {[ "200" := VDict {[ "description" := VStr "OK" ]} ]}.
    split; reflexivity.
Defined.

(** ** Routes that are skipped, and failures *)

Section updater_edge_cases.

Variable extract_struct : type_expr → outcome (option Struct).

(** X1. A route that is not an [APIRoute], or whose endpoint is [None], is
    skipped without a trace: its iteration changes nothing, logs nothing and
    returns, and the whole call gives the same document, records and result
    as on the table without it. *)
Theorem unrecognized_route_skipped (route : BaseRoute) :
  (route = OtherRoute ∨ ∃ r, route = IsAPIRoute r ∧ endpoint r = None) →
  (∀ paths, route_step extract_struct route paths = (paths, [], Return tt)) ∧
  (∀ (openapi_schema : gmap string value) (before after : list BaseRoute),
     update_route_responses extract_struct openapi_schema
       (before ++ route :: after) =
     update_route_responses extract_struct openapi_schema (before ++ after)).
Proof.
  intros Hroute.
  assert (∀ paths, route_step extract_struct route paths =
                   (paths, [], Return tt)) as Hskip.
  { intros paths. destruct Hroute as [->|(r & -> & He)]; [done|].
    cbn [route_step]. by rewrite He. }
  split; [done|]. intros doc before after. unfold update_route_responses.
  by rewrite for_each_skip.
Qed.

(** X2. A route whose handler resolves to a record type but whose path is
    not a key of the path map changes nothing, logs the one debug record
    ["Path %s not in OpenAPI schema"], and returns. *)
Theorem unknown_path_logged (r : APIRoute) (e : Endpoint) (struct : Struct)
    (ps : gmap string value) :
  endpoint r = Some e →
  resolves extract_struct e struct →
  ps !! path r = None →
  route_step extract_struct (IsAPIRoute r) (VDict ps) =
  (VDict ps,
   [ {| levelname := DEBUG; msg := "Path %s not in OpenAPI schema";
        args := [ArgStr (path r)]; exc_info := false |} ], Return tt).
Proof.
  intros He (hints & t & Hhints & Ht & Hx) Hpath.
  cbn [route_step]. rewrite He. unfold try_except, try_body.
  rewrite Hhints, bind_lift_return, Ht, Hx, bind_lift_return, bind_read.
  cbn [contains].
  by rewrite bool_decide_eq_false_2, bind_lift_return
    by (rewrite Hpath; by intros [??]).
Qed.

(** X5. A response entry that is not an object makes
    [_update_method_response] raise [AttributeError] with nothing written
    and nothing logged.  In the loop this ends the route: when the entry of
    the first method is not an object, the route's other methods are not
    processed, the path map is unchanged, and the only record is the debug
    record of the first [except] clause. *)
Theorem non_object_response_ends_route (r : APIRoute) (e : Endpoint)
    (name : string) (struct : Struct) (method : string)
    (others : list string) (paths entry : value) :
  endpoint r = Some e →
  endpoint_name e = Some name →
  resolves extract_struct e struct →
  methods r = method :: others →
  get_at [path r; lower method; "responses"; str (status_code_or_200 r)]
    paths = Some entry →
  is_dict entry = false →
  _update_method_response (path r) (lower method) struct
    (status_code_or_200 r) paths = (paths, [], Raise AttributeError) ∧
  route_step extract_struct (IsAPIRoute r) paths =
  (paths,
   [ {| levelname := DEBUG;
        msg := "Cannot resolve type hints for %s: %s (skipping route)";
        args := [ArgStr name; ArgExc AttributeError];
        exc_info := false |} ], Return tt).
Proof.
  intros He Hname (hints & t & Hhints & Ht & Hx) Hmethods Hentry Hdict.
  apply get_at_entry_inv in Hentry
    as (qs & qo & qr & ro & -> & Q1 & Q2 & Q3 & Q4).
  assert (_update_method_response (path r) (lower method) struct
            (status_code_or_200 r) (VDict qs) =
          (VDict qs, [], Raise AttributeError)) as Hcall.
  { unfold _update_method_response. rewrite bind_read. cbn [getitem].
    rewrite Q1, bind_lift_return. cbn [contains].
    rewrite bool_decide_eq_true_2, bind_lift_return by eauto.
    cbn [negb getitem]. rewrite Q2, bind_lift_return. cbn [get].
    rewrite Q3, bind_lift_return. cbn [contains].
    rewrite bool_decide_eq_true_2, bind_lift_return by eauto.
    cbn [negb getitem]. rewrite Q4, bind_lift_return.
    by rewrite get_nondict. }
  split; [done|].
  cbn [route_step]. rewrite He. unfold try_except, try_body.
  rewrite Hhints, bind_lift_return, Ht, Hx, bind_lift_return, bind_read.
  cbn [contains].
  rewrite bool_decide_eq_true_2, bind_lift_return by eauto. cbn [negb].
  rewrite Hmethods. cbn [for_each]. rewrite bind_run, Hcall.
  unfold except_handler, getattr_name. by rewrite Hname.
Qed.


Lemma apply_writes_empty (P : write → Prop) ws :
  Forall (λ w, length w.1 = 4%nat ∧ P w) ws →
  apply_writes ws (VDict ∅) = VDict ∅.
Proof.
  induction 1 as [|[[|k ks] struct] ws [Hw _] _ IH]; [done|done|].
  change (apply_writes ((k :: ks, struct) :: ws) (VDict ∅))
    with (apply_writes ws (apply_write (k :: ks, struct) (VDict ∅))).
  unfold apply_write. cbn [fst snd alter_at]. by rewrite alter_empty.
Qed.

(** X11. Route tables compose: when the call on a first table returns, the
    call on the two tables one after the other gives what a second call, on
    the document the first one left, gives with the second table, with the
    records of both in order. *)
Theorem update_route_responses_app (openapi_schema doc1 : gmap string value)
    (app1 app2 : list BaseRoute) (l1 : list LogRecord) :
  update_route_responses extract_struct openapi_schema app1 =
    (doc1, l1, Return tt) →
  update_route_responses extract_struct openapi_schema (app1 ++ app2) =
  let second := update_route_responses extract_struct doc1 app2 in
  (second.1.1, l1 ++ second.1.2, second.2).
Proof.
  unfold update_route_responses. intros Hfirst. cbv zeta.
  rewrite for_each_app, bind_run.
  destruct (openapi_schema !! "paths") as [paths|] eqn:Hpaths;
    cbn [default from_option id] in *.
  - destruct (for_each app1 (route_step extract_struct) paths)
      as [[σ1 l1'] o1]. simplify_eq.
    rewrite lookup_insert_eq. cbn [default from_option id].
    destruct (for_each app2 (route_step extract_struct) σ1) as [[σ2 l2] o2].
    cbn [fst snd]. by rewrite insert_insert_eq.
  - destruct (regular_routes extract_struct app1 (VDict ∅))
      as (ws & l & o & Hws & Hrun).
    rewrite (Hrun _ (agree_refl _ _)) in *. simplify_eq.
    rewrite (apply_writes_empty _ _ Hws), Hpaths.
    cbn [default from_option id].
    by destruct (for_each app2 (route_step extract_struct) (VDict ∅))
      as [[σ2 l2] o2].
Qed.

(** X12. A route whose handler has no [__name__] and whose annotations
    cannot be read stops the call: the document and the records are those
    the routes before it left, the result is [AttributeError], and the
    routes after it are not attempted. *)
Theorem nameless_failure_stops_call (openapi_schema doc1 : gmap string value)
    (before after : list BaseRoute) (l1 : list LogRecord) (r : APIRoute)
    (e : Endpoint) (err : exn) :
  endpoint r = Some e →
  endpoint_name e = None →
  get_type_hints e = Raise err →
  update_route_responses extract_struct openapi_schema before =
    (doc1, l1, Return tt) →
  update_route_responses extract_struct openapi_schema
    (before ++ IsAPIRoute r :: after) =
  (doc1, l1, Raise AttributeError).
Proof.
  intros He Hname Hhints. unfold update_route_responses. intros Hfirst.
  rewrite for_each_app, bind_run.
  destruct (for_each before (route_step extract_struct) _) as [[σ1 l1'] o1].
  simplify_eq. cbn [for_each]. rewrite bind_run.
  assert (route_step extract_struct (IsAPIRoute r) σ1 =
          (σ1, [], Raise AttributeError)) as ->.
  { cbn [route_step]. rewrite He. unfold try_except, try_body.
    rewrite Hhints, bind_lift_raise. unfold except_handler, getattr_name.
    rewrite Hname. by destruct (is_name_or_attribute_error err). }
  by rewrite app_nil_r.
Qed.

End updater_edge_cases.

(** ** What the update keeps *)

Lemma get_at_apply_writes_non_object (P : write → Prop) pos ws σ entry :
  length pos = 4%nat →
  Forall (λ w, length w.1 = 4%nat ∧ P w) ws →
  get_at pos σ = Some entry → is_dict entry = false →
  get_at pos (apply_writes ws σ) = Some entry.
Proof.
  intros Hpos Hws. revert σ.
  induction Hws as [|[pos' struct] ws [Hw _] _ IH]; intros σ Hσ Hentry;
    [done|].
  change (apply_writes ((pos', struct) :: ws) σ)
    with (apply_writes ws (apply_write (pos', struct) σ)).
  apply IH; [|done]. destruct (decide (pos' = pos)) as [->|Hne].
  - rewrite get_at_apply_write_same, Hσ. cbn. by rewrite rewrite_nondict.
  - rewrite get_at_apply_write_other; [done| |done]. cbn [fst] in *. congruence.
Qed.

Lemma all_values_alter f (g : value → value) k (d : gmap string value) :
  (∀ x, f x = true → f (g x) = true) →
  all_values f (VDict d) = true → all_values f (VDict (alter g k d)) = true.
Proof.
  intros Hg Hall. cbn [all_values]. apply forallb_forall.
  intros [k' v'] Hin%list_elem_of_In%elem_of_map_to_list. cbn [snd].
  apply lookup_alter_Some in Hin as [(-> & x & Hx & ->)|[_ Hk']].
  - apply Hg. by eapply all_values_lookup.
  - by eapply all_values_lookup.
Qed.

Lemma paths_shaped_apply_write (w : write) σ :
  length w.1 = 4%nat → paths_shaped σ = true →
  paths_shaped (apply_write w σ) = true.
Proof.
  destruct w as [[|a [|b [|c [|d [|? ?]]]]] struct]; try done. intros _ Hshape.
  destruct (is_dict_true σ (all_values_is_dict _ _ Hshape)) as [ps ->].
  unfold apply_write, paths_shaped. cbn [fst snd alter_at].
  apply all_values_alter; [|done]. intros item Hitem.
  destruct (is_dict_true item (all_values_is_dict _ _ Hitem)) as [ops ->].
  apply all_values_alter; [|done]. intros [| | | | |o] Hop; try done.
  cbn [operation_shaped] in *.
  destruct (decide (c = "responses")) as [->|Hc].
  - rewrite lookup_alter_eq. destruct (o !! "responses") as [r|]; [|done].
    cbn. destruct (is_dict_true r (all_values_is_dict _ _ Hop)) as [rs ->].
    apply all_values_alter; [|done]. by intros [| | | | |?].
  - by rewrite lookup_alter_ne.
Qed.

Lemma paths_shaped_apply_writes (P : write → Prop) ws σ :
  Forall (λ w, length w.1 = 4%nat ∧ P w) ws →
  paths_shaped σ = true → paths_shaped (apply_writes ws σ) = true.
Proof.
  intros Hws. revert σ. induction Hws as [|w ws [Hw _] _ IH]; intros σ Hσ;
    [done|].
  change (apply_writes (w :: ws) σ) with (apply_writes ws (apply_write w σ)).
  by apply IH, paths_shaped_apply_write.
Qed.

Lemma apply_writes_non_mapping (P : write → Prop) ws σ :
  Forall (λ w, length w.1 = 4%nat ∧ P w) ws →
  is_dict σ = false → apply_writes ws σ = σ.
Proof.
  intros Hws Hσ. induction Hws as [|[[|k ks] struct] ws [Hw _] _ IH];
    [done|done|].
  change (apply_writes ((k :: ks, struct) :: ws) σ)
    with (apply_writes ws (apply_write (k :: ks, struct) σ)).
  unfold apply_write. cbn [fst snd]. by rewrite alter_at_nondict.
Qed.

Section updater_invariants.

Variable extract_struct : type_expr → outcome (option Struct).

(** X13. The update never changes a description: a response entry that is an
    object before the call is an object after it, and its description,
    read with the default ["Successful Response"], is the same. *)
Theorem descriptions_preserved (openapi_schema : gmap string value)
    (app : list BaseRoute) (p m s : string) (o : gmap string value) :
  get_at ["paths"; p; m; "responses"; s] (VDict openapi_schema) =
    Some (VDict o) →
  ∃ o',
    get_at ["paths"; p; m; "responses"; s]
      (VDict (update_route_responses extract_struct openapi_schema app).1.1) =
      Some (VDict o') ∧
    default (VStr "Successful Response") (o' !! "description") =
    default (VStr "Successful Response") (o !! "description").
Proof.
  intros Hentry.
  destruct (update_route_responses_doc extract_struct openapi_schema app)
    as (ws & Hws & ->).
  cbn [get_at] in *. rewrite lookup_alter_eq.
  destruct (openapi_schema !! "paths") as [paths|]; [|done]. cbn in *.
  by apply (get_at_apply_writes_description _ [p; m; "responses"; s] ws
              paths o eq_refl Hws).
Qed.

(** X14. A response entry that is not an object (a string, a number,
    [null], a list) is never replaced: it is the same after the call. *)
Theorem non_object_entries_untouched (openapi_schema : gmap string value)
    (app : list BaseRoute) (p m s : string) (entry : value) :
  get_at ["paths"; p; m; "responses"; s] (VDict openapi_schema) =
    Some entry →
  is_dict entry = false →
  get_at ["paths"; p; m; "responses"; s]
    (VDict (update_route_responses extract_struct openapi_schema app).1.1) =
  Some entry.
Proof.
  intros Hentry Hdict.
  destruct (update_route_responses_doc extract_struct openapi_schema app)
    as (ws & Hws & ->).
  cbn [get_at] in *. rewrite lookup_alter_eq.
  destruct (openapi_schema !! "paths") as [paths|]; [|done]. cbn in *.
  by apply (get_at_apply_writes_non_object _ [p; m; "responses"; s] ws
              paths entry eq_refl Hws).
Qed.


(** X16. The update keeps the shape of the path map: if every path item is
    a mapping of operation objects whose ["responses"] map status strings
    to objects before the call, the same holds after it. *)
Theorem paths_shape_preserved (openapi_schema : gmap string value)
    (app : list BaseRoute) (paths : value) :
  openapi_schema !! "paths" = Some paths →
  paths_shaped paths = true →
  ∃ paths',
    (update_route_responses extract_struct openapi_schema app).1.1 !! "paths"
      = Some paths' ∧
    paths_shaped paths' = true.
Proof.
  intros Hpaths Hshape.
  destruct (update_route_responses_doc extract_struct openapi_schema app)
    as (ws & Hws & ->).
  exists (apply_writes ws paths). split.
  - by rewrite lookup_alter_eq, Hpaths.
  - by eapply paths_shaped_apply_writes.
Qed.

(** X6. When the value under ["paths"] is not a mapping ([null], a list, a
    string, a number), the document is left exactly as it is, for every
    route table. *)
Theorem non_mapping_paths_unchanged (openapi_schema : gmap string value)
    (app : list BaseRoute) (paths : value) :
  openapi_schema !! "paths" = Some paths →
  is_dict paths = false →
  (update_route_responses extract_struct openapi_schema app).1.1 =
  openapi_schema.
Proof.
  intros Hpaths Hdict.
  destruct (update_route_responses_doc extract_struct openapi_schema app)
    as (ws & Hws & ->).
  apply alter_id. intros x Hx. rewrite Hpaths in Hx. simplify_eq.
  by eapply apply_writes_non_mapping.
Qed.

End updater_invariants.

(** ** Order and case of methods, order of routes *)

Lemma apply_write_commute (a b : write) σ :
  length a.1 = 4%nat → length b.1 = 4%nat →
  (a.1 = b.1 → a.2 = b.2) →
  apply_write a (apply_write b σ) = apply_write b (apply_write a σ).
Proof.
  intros Ha Hb Hsame. destruct a as [pa sa], b as [pb sb]. cbn [fst snd] in *.
  destruct (decide (pa = pb)) as [->|Hne].
  - by rewrite (Hsame eq_refl).
  - unfold apply_write. cbn [fst snd]. apply alter_at_commute; congruence.
Qed.

Lemma apply_writes_commute_one (a : write) ws σ :
  length a.1 = 4%nat →
  Forall (λ b : write, length b.1 = 4%nat ∧ (a.1 = b.1 → a.2 = b.2)) ws →
  apply_write a (apply_writes ws σ) = apply_writes ws (apply_write a σ).
Proof.
  intros Ha Hws. revert σ. induction Hws as [|b ws [Hb Hab] _ IH]; intros σ;
    [done|].
  change (apply_writes (b :: ws) σ) with (apply_writes ws (apply_write b σ)).
  change (apply_writes (b :: ws) (apply_write a σ))
    with (apply_writes ws (apply_write b (apply_write a σ))).
  by rewrite IH, apply_write_commute.
Qed.

Lemma apply_writes_commute ws1 ws2 σ :
  Forall (λ a : write, length a.1 = 4%nat ∧
    Forall (λ b : write, length b.1 = 4%nat ∧ (a.1 = b.1 → a.2 = b.2)) ws2)
    ws1 →
  apply_writes ws1 (apply_writes ws2 σ) = apply_writes ws2 (apply_writes ws1 σ).
Proof.
  intros Hws. revert σ. induction Hws as [|a ws1 [Ha Hab] _ IH]; intros σ;
    [done|].
  change (apply_writes (a :: ws1) (apply_writes ws2 σ))
    with (apply_writes ws1 (apply_write a (apply_writes ws2 σ))).
  change (apply_writes (a :: ws1) σ)
    with (apply_writes ws1 (apply_write a σ)).
  by rewrite apply_writes_commute_one, IH.
Qed.

Lemma apply_writes_methods_perm path sc struct (ms ms' : list string) σ :
  ms ≡ₚ ms' →
  apply_writes (map (λ m, (entry_pos path (lower m) sc, struct)) ms) σ =
  apply_writes (map (λ m, (entry_pos path (lower m) sc, struct)) ms') σ.
Proof.
  intros Hperm. revert σ.
  induction Hperm as [|m ms ms' _ IH|m1 m2 ms|ms1 ms2 ms3 _ IH1 _ IH2];
    intros σ.
  - done.
  - cbn [map]. apply IH.
  - cbn [map].
    change (apply_writes (?a :: ?b :: ?ws) σ)
      with (apply_writes ws (apply_write b (apply_write a σ))).
    f_equal. apply apply_write_commute; try done; cbn; congruence.
  - by rewrite IH1.
Qed.

Lemma for_each_methods_lower path struct sc (ms : list string) σ :
  for_each ms (λ method,
    _update_method_response path (lower method) struct sc) σ =
  for_each (map lower ms) (λ method,
    _update_method_response path method struct sc) σ.
Proof.
  revert σ. induction ms as [|m ms IH]; intros σ; [done|].
  cbn [map for_each]. rewrite !bind_run.
  destruct (_update_method_response path (lower m) struct sc σ)
    as [[σ1 l1] [[]|e]]; [|done].
  by rewrite IH.
Qed.

Section updater_order.

Variable extract_struct : type_expr → outcome (option Struct).

(** X17. On a path map of the expected shape, the order in which the methods
    of a route are iterated does not matter: two routes that differ only in
    the order of their methods leave the same path map and end the same
    way. *)
Theorem method_order_irrelevant (r r' : APIRoute) (paths : value) :
  path r = path r' → status_code r = status_code r' →
  endpoint r = endpoint r' → methods r ≡ₚ methods r' →
  paths_shaped paths = true →
  (route_step extract_struct (IsAPIRoute r) paths).1.1 =
    (route_step extract_struct (IsAPIRoute r') paths).1.1 ∧
  (route_step extract_struct (IsAPIRoute r) paths).2 =
    (route_step extract_struct (IsAPIRoute r') paths).2.
Proof.
  destruct r as [p ms sc e], r' as [p' ms' sc' e']. cbn [path methods
    status_code endpoint]. intros <- <- <- Hperm Hshape.
  cbn [route_step endpoint]. destruct e as [e|]; [|done].
  unfold try_except, try_body. cbn [path methods].
  destruct (get_type_hints e) as [hints|err];
    [rewrite !bind_lift_return|by rewrite !bind_lift_raise].
  destruct (hints !! "return") as [t|]; [|done].
  destruct (extract_struct t) as [[struct|]|err];
    [rewrite !bind_lift_return| |]; try done.
  rewrite !bind_read.
  destruct (is_dict_true paths (all_values_is_dict _ _ Hshape)) as [ps ->].
  cbn [contains]. rewrite !bind_lift_return.
  destruct (ps !! p) as [item|] eqn:Q1; cycle 1.
  { by rewrite !bool_decide_eq_false_2 by (by intros [??]). }
  rewrite !bool_decide_eq_true_2 by eauto. cbn [negb].
  unfold status_code_or_200. cbn [status_code].
  generalize (match sc with
              | Some c => if c =? 0 then 200 else c
              | None => 200
              end). intros z.
  destruct (for_each_methods_shaped p ms struct z (VDict ps) (VDict ps)
              Hshape) as [l ->]; [by cbn; rewrite Q1|apply agree_refl|].
  destruct (for_each_methods_shaped p ms' struct z (VDict ps) (VDict ps)
              Hshape) as [l' ->]; [by cbn; rewrite Q1|apply agree_refl|].
  cbn [fst snd]. split; [|done]. by apply apply_writes_methods_perm.
Qed.

(** X18. Methods are matched by their lowercase form only: two routes whose
    methods have the same lowercase forms, in the same order, and that are
    otherwise equal, give the same path map, the same records and the same
    result. *)
Theorem method_case_irrelevant (r r' : APIRoute) (paths : value) :
  path r = path r' → status_code r = status_code r' →
  endpoint r = endpoint r' →
  map lower (methods r) = map lower (methods r') →
  route_step extract_struct (IsAPIRoute r) paths =
  route_step extract_struct (IsAPIRoute r') paths.
Proof.
  destruct r as [p ms sc e], r' as [p' ms' sc' e']. cbn [path methods
    status_code endpoint]. intros <- <- <- Hlower.
  cbn [route_step endpoint]. destruct e as [e|]; [|done].
  unfold try_except, try_body. cbn [path methods].
  destruct (get_type_hints e) as [hints|err];
    [rewrite !bind_lift_return|by rewrite !bind_lift_raise].
  destruct (hints !! "return") as [t|]; [|done].
  destruct (extract_struct t) as [[struct|]|err];
    [rewrite !bind_lift_return| |]; try done.
  rewrite !bind_read.
  destruct (contains p paths) as [[]|err];
    [rewrite !bind_lift_return|by rewrite !bind_lift_return|done].
  cbn [negb]. by rewrite !for_each_methods_lower, Hlower.
Qed.

Lemma for_each_cons_state route app σ :
  named [route] →
  (for_each (route :: app) (route_step extract_struct) σ).1.1 =
  (for_each app (route_step extract_struct)
     (route_step extract_struct route σ).1.1).1.1.
Proof.
  intros Hnamed. cbn [for_each]. rewrite bind_run.
  pose proof (route_step_returns extract_struct route σ Hnamed) as Hret.
  destruct (route_step extract_struct route σ) as [[σ1 l1] o1].
  cbn [fst snd] in *. subst o1.
  by destruct (for_each app (route_step extract_struct) σ1) as [[??]?].
Qed.

Lemma targets_perm app app' w :
  app ≡ₚ app' → targets extract_struct app w → targets extract_struct app' w.
Proof. intros Hperm (r & Hr & Hw). exists r. by rewrite <- Hperm. Qed.

Lemma named_perm app app' : app ≡ₚ app' → named app → named app'.
Proof. intros Hperm H r e Hr. apply H. by rewrite Hperm. Qed.

Lemma for_each_routes_perm app app' σ0 σ :
  app ≡ₚ app' → named app →
  (∀ w w', targets extract_struct app w → targets extract_struct app w' →
           w.1 = w'.1 → w.2 = w'.2) →
  agree 4 σ0 σ →
  (for_each app (route_step extract_struct) σ).1.1 =
  (for_each app' (route_step extract_struct) σ).1.1.
Proof.
  intros Hperm. revert σ.
  induction Hperm as [|x l l' Hperm IH|x y l|l1 l2 l3 Hp1 IH1 Hp2 IH2];
    intros σ Hnamed Hcompat Hσ.
  - done.
  - destruct (named_app [x] l Hnamed) as [Hx Hl].
    rewrite !for_each_cons_state by done.
    destruct (route_step_writes extract_struct x σ)
      as (ws & lx & ox & Hws & ->). cbn [fst].
    apply IH; [done| |].
    + intros w w' (r & Hr & Hw) (r' & Hr' & Hw'). apply Hcompat.
      * exists r. split; [by right|done].
      * exists r'. split; [by right|done].
    + eapply agree_trans; [exact Hσ|]. apply agree_sym.
      by eapply agree_apply_writes.
  - destruct (named_app [y] (x :: l) Hnamed) as [Hy Hxl].
    destruct (named_app [x] l Hxl) as [Hx Hl].
    rewrite !for_each_cons_state by done. f_equal. f_equal.
    destruct (regular_route_step extract_struct x [x]
                (list_elem_of_here _ _) σ) as (wsx & lx & ox & Hwsx & Hrunx).
    destruct (regular_route_step extract_struct y [y]
                (list_elem_of_here _ _) σ) as (wsy & ly & oy & Hwsy & Hruny).
    rewrite (Hruny σ (agree_refl _ _)), (Hrunx σ (agree_refl _ _)).
    cbn [fst].
    rewrite Hrunx by (apply agree_sym; by eapply agree_apply_writes).
    rewrite Hruny by (apply agree_sym; by eapply agree_apply_writes).
    cbn [fst]. f_equal. apply apply_writes_commute.
    eapply Forall_impl; [exact Hwsx|]. intros a [Ha (ra & Hra & Hta)].
    split; [done|]. eapply Forall_impl; [exact Hwsy|].
    intros b [Hb (rb & Hrb & Htb)]. split; [done|].
    apply list_elem_of_singleton in Hra. apply list_elem_of_singleton in Hrb.
    apply Hcompat.
    + exists ra. split; [rewrite Hra; right; left|done].
    + exists rb. split; [rewrite Hrb; left|done].
  - rewrite IH1 by done. apply IH2; [by eapply named_perm| |done].
    intros w w' Hw Hw'. apply Hcompat; eapply targets_perm; try done;
      by symmetry.
Qed.

(** X19. When every handler has a [__name__] and no two routes target the
    same response entry with different record types, the document after the
    call does not depend on the order of the routes in the table. *)
Theorem route_order_irrelevant (openapi_schema : gmap string value)
    (app app' : list BaseRoute) :
  app ≡ₚ app' →
  named app →
  (∀ w w', targets extract_struct app w → targets extract_struct app w' →
           w.1 = w'.1 → w.2 = w'.2) →
  (update_route_responses extract_struct openapi_schema app).1.1 =
  (update_route_responses extract_struct openapi_schema app').1.1.
Proof.
  intros Hperm Hnamed Hcompat. unfold update_route_responses.
  pose proof (for_each_routes_perm app app' _
                (default (VDict ∅) (openapi_schema !! "paths"))
                Hperm Hnamed Hcompat (agree_refl _ _)) as Hstate.
  destruct (for_each app _ _) as [[σ1 l1] o1].
  destruct (for_each app' _ _) as [[σ2 l2] o2].
  cbn [fst] in *. by subst σ2.
Qed.

End updater_order.

(** ** Instances of the further properties *)

Lemma resolves_item_out :
  resolves extract (Examples.handler (TStruct Examples.ItemOut))
    Examples.ItemOut.
Proof.
  exists {[ "return" := TStruct Examples.ItemOut ]},
    (TStruct Examples.ItemOut). split; [reflexivity|]. split; reflexivity.
Defined.

Lemma named_items_route : named [IsAPIRoute Examples.items_route].
Proof.
  intros r e Hr He. apply list_elem_of_singleton in Hr as [= ->].
  injection He as <-. by eexists.
Defined.

Lemma unrecognized_route_skipped_witness :
  (∀ paths,
     route_step extract (IsAPIRoute Scenarios.no_endpoint_route) paths =
     (paths, [], Return tt)) ∧
  (∀ (openapi_schema : gmap string value) (before after : list BaseRoute),
     update_route_responses extract openapi_schema
       (before ++ IsAPIRoute Scenarios.no_endpoint_route :: after) =
     update_route_responses extract openapi_schema (before ++ after)).
Proof.
  apply (unrecognized_route_skipped extract).
  right. by exists Scenarios.no_endpoint_route.
Defined.

Lemma unknown_path_logged_witness :
  route_step extract (IsAPIRoute Scenarios.users_route)
    (VDict Scenarios.items_path_map) =
  (VDict Scenarios.items_path_map,
   [ {| levelname := DEBUG; msg := "Path %s not in OpenAPI schema";
        args := [ArgStr "/users"]; exc_info := false |} ], Return tt).
Proof.
  apply (unknown_path_logged extract Scenarios.users_route
           (Examples.handler (TStruct Examples.ItemOut)) Examples.ItemOut).
  - reflexivity.
  - exact resolves_item_out.
  - reflexivity.
Defined.

Lemma non_object_response_ends_route_witness :
  _update_method_response "/items" "get" Examples.ItemOut 200
    Scenarios.null_response_paths =
    (Scenarios.null_response_paths, [], Raise AttributeError) ∧
  route_step extract (IsAPIRoute Scenarios.get_post_route)
    Scenarios.null_response_paths =
  (Scenarios.null_response_paths,
   [ {| levelname := DEBUG;
        msg := "Cannot resolve type hints for %s: %s (skipping route)";
        args := [ArgStr "list_items"; ArgExc AttributeError];
        exc_info := false |} ], Return tt).
Proof.
  apply (non_object_response_ends_route extract Scenarios.get_post_route
           (Examples.handler (TStruct Examples.ItemOut)) "list_items"
           Examples.ItemOut "GET" ["POST"] Scenarios.null_response_paths
           VNone).
  - reflexivity.
  - reflexivity.
  - exact resolves_item_out.
  - reflexivity.
  - reflexivity.
  - reflexivity.
Defined.

Lemma non_mapping_paths_unchanged_witness :
  (update_route_responses extract {[ "paths" := VNone ]}
     [IsAPIRoute Examples.items_route]).1.1 = {[ "paths" := VNone ]}.
Proof.
  apply (non_mapping_paths_unchanged extract {[ "paths" := VNone ]}
           [IsAPIRoute Examples.items_route] VNone); reflexivity.
Defined.

Lemma update_route_responses_returns_witness :
  (update_route_responses extract Examples.items_doc
     [IsAPIRoute Examples.items_route]).2 = Return tt.
Proof.
  apply (update_route_responses_returns extract Examples.items_doc
           [IsAPIRoute Examples.items_route] named_items_route).
Defined.

Lemma route_step_failure_logged_witness :
  ∃ record,
    route_step extract (IsAPIRoute Scenarios.broken_route)
      Examples.items_paths =
      (Examples.items_paths, [] ++ [record], Return tt) ∧
    levelname record = ERROR.
Proof.
  apply (route_step_failure_logged extract Scenarios.broken_route
           Scenarios.broken_handler "broken" Examples.items_paths
           Examples.items_paths [] (OtherError "SyntaxError"));
    reflexivity.
Defined.

Lemma unresolved_annotations_skipped_witness :
  route_step extract (IsAPIRoute Scenarios.named_forward_ref_route)
    Examples.items_paths =
  (Examples.items_paths,
   [ {| levelname := DEBUG;
        msg := "Cannot resolve type hints for %s: %s (skipping route)";
        args := [ArgStr "list_items"; ArgExc NameError];
        exc_info := false |} ], Return tt).
Proof.
  apply (unresolved_annotations_skipped extract
           Scenarios.named_forward_ref_route Scenarios.forward_ref_handler
           "list_items" Examples.items_paths); reflexivity.
Defined.


Lemma update_route_responses_app_witness :
  update_route_responses extract Examples.items_doc
    ([IsAPIRoute Examples.plain_route] ++ [IsAPIRoute Examples.items_route]) =
  let second :=
    update_route_responses extract Examples.items_doc
      [IsAPIRoute Examples.items_route] in
  (second.1.1, [] ++ second.1.2, second.2).
Proof.
  apply (update_route_responses_app extract Examples.items_doc
           Examples.items_doc [IsAPIRoute Examples.plain_route]
           [IsAPIRoute Examples.items_route] []).
  vm_compute. reflexivity.
Defined.

Lemma nameless_failure_stops_call_witness :
  update_route_responses extract Examples.items_doc
    ([IsAPIRoute Examples.plain_route] ++
     IsAPIRoute Examples.partial_route :: [IsAPIRoute Examples.items_route]) =
  (Examples.items_doc, [], Raise AttributeError).
Proof.
  apply (nameless_failure_stops_call extract Examples.items_doc
           Examples.items_doc [IsAPIRoute Examples.plain_route]
           [IsAPIRoute Examples.items_route] [] Examples.partial_route
           Examples.partial_endpoint TypeError).
  - reflexivity.
  - reflexivity.
  - reflexivity.
  - vm_compute. reflexivity.
Defined.

Lemma descriptions_preserved_witness :
  ∃ o',
    get_at ["paths"; "/items"; "get"; "responses"; "200"]
      (VDict (update_route_responses extract Examples.items_doc
                [IsAPIRoute Examples.items_route]).1.1) = Some (VDict o') ∧
    default (VStr "Successful Response") (o' !! "description") =
    default (VStr "Successful Response")
      (({[ "description" := VStr "OK" ]} : gmap string value)
         !! "description").
Proof.
  apply (descriptions_preserved extract Examples.items_doc
           [IsAPIRoute Examples.items_route] "/items" "get" "200"
           {[ "description" := VStr "OK" ]}).
  reflexivity.
Defined.

Lemma non_object_entries_untouched_witness :
  get_at ["paths"; "/items"; "get"; "responses"; "200"]
    (VDict (update_route_responses extract
              {[ "paths" := Scenarios.null_response_paths ]}
              [IsAPIRoute Scenarios.post_get_route]).1.1) = Some VNone.
Proof.
  apply (non_object_entries_untouched extract
           {[ "paths" := Scenarios.null_response_paths ]}
           [IsAPIRoute Scenarios.post_get_route] "/items" "get" "200" VNone);
    reflexivity.
Defined.


Lemma paths_shape_preserved_witness :
  ∃ paths',
    (update_route_responses extract Examples.items_doc
       [IsAPIRoute Examples.items_route]).1.1 !! "paths" = Some paths' ∧
    paths_shaped paths' = true.
Proof.
  apply (paths_shape_preserved extract Examples.items_doc
           [IsAPIRoute Examples.items_route] Examples.items_paths).
  - reflexivity.
  - vm_compute. reflexivity.
Defined.

Lemma method_order_irrelevant_witness :
  (route_step extract (IsAPIRoute Scenarios.get_post_route)
     Scenarios.get_post_paths).1.1 =
    (route_step extract (IsAPIRoute Scenarios.post_get_route)
       Scenarios.get_post_paths).1.1 ∧
  (route_step extract (IsAPIRoute Scenarios.get_post_route)
     Scenarios.get_post_paths).2 =
    (route_step extract (IsAPIRoute Scenarios.post_get_route)
       Scenarios.get_post_paths).2.
Proof.
  apply (method_order_irrelevant extract Scenarios.get_post_route
           Scenarios.post_get_route Scenarios.get_post_paths).
  - reflexivity.
  - reflexivity.
  - reflexivity.
  - apply perm_swap.
  - vm_compute. reflexivity.
Defined.

Lemma method_case_irrelevant_witness :
  route_step extract (IsAPIRoute Examples.items_route) Examples.items_paths =
  route_step extract (IsAPIRoute Scenarios.lowercase_route)
    Examples.items_paths.
Proof.
  apply (method_case_irrelevant extract Examples.items_route
           Scenarios.lowercase_route Examples.items_paths); reflexivity.
Defined.

Lemma route_order_irrelevant_witness :
  (update_route_responses extract Examples.items_doc
     [IsAPIRoute Examples.items_route; IsAPIRoute Scenarios.users_route]).1.1 =
  (update_route_responses extract Examples.items_doc
     [IsAPIRoute Scenarios.users_route; IsAPIRoute Examples.items_route]).1.1.
Proof.
  apply (route_order_irrelevant extract Examples.items_doc
           [IsAPIRoute Examples.items_route; IsAPIRoute Scenarios.users_route]
           [IsAPIRoute Scenarios.users_route; IsAPIRoute Examples.items_route]).
  - apply perm_swap.
  - intros r e Hr He.
    apply elem_of_cons in Hr as [[= ->]|Hr];
      [|apply list_elem_of_singleton in Hr as [= ->]];
      injection He as <-; by eexists.
  - assert (∀ w, targets extract
                   [IsAPIRoute Examples.items_route;
                    IsAPIRoute Scenarios.users_route] w →
                 w.2 = Examples.ItemOut) as Hall.
    { intros w (r & Hr & e & m & He & (hints & t & Hh & Ht & Hx) & _).
      apply elem_of_cons in Hr as [[= ->]|Hr];
        [|apply list_elem_of_singleton in Hr as [= ->]];
        injection He as <-; injection Hh as <-;
        apply lookup_singleton_Some in Ht as [_ <-];
        by injection Hx as <-. }
    intros w w' Hw Hw' _. by rewrite (Hall w Hw), (Hall w' Hw').
Defined.
